(** * Tap Place: the tap-to-spawn behaviour of [src/index.ts]

    A shallow embedding of the 8th Wall part of [src/index.ts]
    (lines 125-220): the clone registry [componentsForClone], the
    cloner [cloneComponents] and the state machine of the
    ["Tap Place"] component (its [onEnter] and its
    [SCREEN_TOUCH_START] listener).

    Timestamps are integers ([Date.now()] is an integral number of
    milliseconds, and differences of such values are exact in a
    double).  Every other number is an IEEE-754 binary64 value, as a
    JavaScript number is, with the arithmetic of the Standard Library's
    [SpecFloat]: each operation rounds to nearest, ties to even. *)

From Stdlib Require Import ZArith Lia List Sorted SpecFloat.
From stdpp Require Import base gmap strings list.

Local Open Scope Z_scope.

(** ** Entities, attribute kinds and attribute values *)

(** An entity id ([ecs.eid]).  The only falsy id is [0]. *)
Definition Eid : Type := N.

(** The attribute kinds the source names: the eighteen members of
    [componentsForClone], [ecs.Disabled] used by [onEnter], and
    [OtherKind] for every kind of the host that the source never
    mentions. *)
Inductive Component : Type :=
  | Position
  | Quaternion
  | Scale
  | Shadow
  | BoxGeometry
  | Material
  | ScaleAnimation
  | PositionAnimation
  | RotateAnimation
  | CustomPropertyAnimation
  | CustomVec3Animation
  | FollowAnimation
  | LookAtAnimation
  | GltfModel
  | Collider
  | ParticleEmitter
  | Ui
  | Audio
  | Disabled
  | OtherKind (name : string).

#[global] Instance Component_eq_dec : EqDecision Component.
Proof. solve_decision. Defined.

Definition Component_code (c : Component) : nat + string :=
  match c with
  | Position => inl 0%nat
  | Quaternion => inl 1%nat
  | Scale => inl 2%nat
  | Shadow => inl 3%nat
  | BoxGeometry => inl 4%nat
  | Material => inl 5%nat
  | ScaleAnimation => inl 6%nat
  | PositionAnimation => inl 7%nat
  | RotateAnimation => inl 8%nat
  | CustomPropertyAnimation => inl 9%nat
  | CustomVec3Animation => inl 10%nat
  | FollowAnimation => inl 11%nat
  | LookAtAnimation => inl 12%nat
  | GltfModel => inl 13%nat
  | Collider => inl 14%nat
  | ParticleEmitter => inl 15%nat
  | Ui => inl 16%nat
  | Audio => inl 17%nat
  | Disabled => inl 18%nat
  | OtherKind name => inr name
  end.

Definition Component_of_code (x : nat + string) : Component :=
  match x with
  | inl 0%nat => Position
  | inl 1%nat => Quaternion
  | inl 2%nat => Scale
  | inl 3%nat => Shadow
  | inl 4%nat => BoxGeometry
  | inl 5%nat => Material
  | inl 6%nat => ScaleAnimation
  | inl 7%nat => PositionAnimation
  | inl 8%nat => RotateAnimation
  | inl 9%nat => CustomPropertyAnimation
  | inl 10%nat => CustomVec3Animation
  | inl 11%nat => FollowAnimation
  | inl 12%nat => LookAtAnimation
  | inl 13%nat => GltfModel
  | inl 14%nat => Collider
  | inl 15%nat => ParticleEmitter
  | inl 16%nat => Ui
  | inl 17%nat => Audio
  | inl _ => Disabled
  | inr name => OtherKind name
  end.

#[global] Instance Component_countable : Countable Component.
Proof.
  refine (inj_countable' Component_code Component_of_code _).
  intros c; destruct c; reflexivity.
Defined.

(** ** Numbers *)

(** A JavaScript number: a binary64 floating-point value (53 bits of
    precision, infinities at exponent 1024), signed zeros, infinities
    and NaN included. *)
Definition double : Type := spec_float.

(** [a + b], [a - b] and [a * b] on numbers. *)
Definition fadd : double -> double -> double := SFadd 53 1024.
Definition fsub : double -> double -> double := SFsub 53 1024.
Definition fmul : double -> double -> double := SFmul 53 1024.

(** [a < b], [a <= b] and [a === b] on numbers. *)
Definition flt (a b : double) : Prop := SFltb a b = true.
Definition fle (a b : double) : Prop := SFleb a b = true.
Definition feq (a b : double) : Prop := SFeqb a b = true.

(** Neither an infinity nor NaN. *)
Definition finite (x : double) : bool :=
  match x with
  | S754_zero _ | S754_finite _ _ _ => true
  | S754_infinity _ | S754_nan => false
  end.

(** An integer literal of the source, such as [0], [400] or [3.0],
    denotes the number nearest to it; so does an integer written where
    a number is expected below. *)
Definition double_of_Z (z : Z) : double := binary_normalize 53 1024 z 0 false.

Coercion double_of_Z : Z >-> double.

(** The number [k / 2^n] (the nearest one, should [k] not fit in 53
    bits): the shape of the values of [Math.random()]. *)
Definition draw (k n : Z) : double := binary_normalize 53 1024 k (- n) false.

(** A field of an attribute record: a number, a boolean or a string. *)
Inductive Value : Type :=
  | VNum (x : double)
  | VBool (b : bool)
  | VStr (s : string).

(** An attribute record is a JavaScript object: a finite map from field
    names to values. *)
Abbreviation Props := (gmap string Value).

(** ** The host world *)

(** The world registry: the allocation counter behind
    [world.createEntity()] and the attribute table, keyed by kind and
    entity. *)
Record World : Type := mkWorld {
  nextEntity : Eid;
  components : gmap (Component * Eid) Props
}.

(** Modelled from the spec: the host's per-(kind, entity) attribute
    operations [component.has], [component.get] and [component.set] of
    [@8thwall/ecs], which are not part of the repository.  [has] is the
    presence predicate, [get] reads the record, and [set] writes the
    record, overwriting any prior value of that kind on the entity. *)
Definition has (component : Component) (world : World) (eid : Eid) : bool :=
  bool_decide (is_Some (components world !! (component, eid))).

Definition get (component : Component) (world : World) (eid : Eid) : Props :=
  default ∅ (components world !! (component, eid)).

Definition set (component : Component) (world : World) (eid : Eid)
    (properties : Props) : World :=
  mkWorld (nextEntity world)
          (<[(component, eid) := properties]> (components world)).

(** Modelled from the spec: [world.createEntity()] of the host, which
    returns an identifier and registers it; entity creation touches no
    attribute. *)
Definition createEntity (world : World) : Eid * World :=
  (nextEntity world,
   mkWorld (N.succ (nextEntity world)) (components world)).

(** ** The clone registry and the cloner (lines 126-154) *)

Definition componentsForClone : list Component :=
  [ Position;
    Quaternion;
    Scale;
    Shadow;
    BoxGeometry;
    Material;
    ScaleAnimation;
    PositionAnimation;
    RotateAnimation;
    CustomPropertyAnimation;
    CustomVec3Animation;
    FollowAnimation;
    LookAtAnimation;
    GltfModel;
    Collider;
    ParticleEmitter;
    Ui;
    Audio ].

(** The object spread [{ ...properties }]: a fresh object with the same
    fields.  Records are immutable values here, so the copy is the
    record itself. *)
Definition spread (properties : Props) : Props := properties.

(** The body of the [forEach] callback of [cloneComponents]. *)
Definition cloneComponent (sourceEid targetEid : Eid) (world : World)
    (component : Component) : World :=
  if has component world sourceEid then
    let properties := get component world sourceEid in
    set component world targetEid (spread properties)
  else world.

(** [componentsForClone.forEach(...)]: the callback runs on the members
    in list order, each on the world the previous one left. *)
Definition cloneComponents (sourceEid targetEid : Eid) (world : World) : World :=
  foldl (cloneComponent sourceEid targetEid) world componentsForClone.

(** The writes a clone performs: one [set] on the target per kind of
    the list that the source carries, in list order, each with the
    value the source had when the clone started. *)
Definition cloneWrites (sourceEid : Eid) (w0 : World) (ks : list Component)
    : list Component :=
  filter (fun k => has k w0 sourceEid = true) ks.

Definition writeFrom (sourceEid targetEid : Eid) (w0 : World) (acc : World)
    (k : Component) : World :=
  set k acc targetEid (get k w0 sourceEid).

(** ** The Tap Place component (lines 156-220) *)

(** The [schema]: the template reference and the scale bounds.  An
    unset reference is [None]; a reference that is set may still be the
    id [0].  The host stores the bounds as [ecs.f32]; what the listener
    reads back and computes with are numbers, the ones given here. *)
Record TapPlaceSchema : Type := mkSchema {
  entityToSpawn : option Eid;
  minScale : double;
  maxScale : double
}.

(** [schemaDefaults]: the bounds default to [1.0] and [3.0]; the
    template has no default. *)
Definition schemaDefaults : TapPlaceSchema :=
  mkSchema None 1 3.

(** The [data]: the one persistent field. *)
Record TapPlaceData : Type := mkData {
  lastInteractionTime : Z
}.

(** The initial value of a [data] field declared without a default is
    the host's choice: an [ecs.f64] field starts at [0]. *)
Definition dataDefaults : TapPlaceData := mkData 0.

(** What the state machine closes over: the world, the two attribute
    stores of the component (keyed by the controlled entity) and the
    lines written with [console.error]. *)
Record Runtime : Type := mkRuntime {
  world : World;
  schemaAttribute : gmap Eid TapPlaceSchema;
  dataAttribute : gmap Eid TapPlaceData;
  console : list string
}.

Definition schemaAttribute_get (rt : Runtime) (eid : Eid) : TapPlaceSchema :=
  default schemaDefaults (schemaAttribute rt !! eid).

Definition dataAttribute_get (rt : Runtime) (eid : Eid) : TapPlaceData :=
  default dataDefaults (dataAttribute rt !! eid).

Definition dataAttribute_set (rt : Runtime) (eid : Eid) (d : TapPlaceData) : Runtime :=
  mkRuntime (world rt) (schemaAttribute rt) (<[eid := d]> (dataAttribute rt))
            (console rt).

Definition with_world (rt : Runtime) (w : World) : Runtime :=
  mkRuntime w (schemaAttribute rt) (dataAttribute rt) (console rt).

Definition console_error (rt : Runtime) (line : string) : Runtime :=
  mkRuntime (world rt) (schemaAttribute rt) (dataAttribute rt)
            (console rt ++ [line]).

(** JavaScript truthiness of the template reference, as tested by
    [if (entityToSpawn)]: an unset reference and the id [0] are falsy.
    The result is the id the true branch works with. *)
Definition truthy (entityToSpawn : option Eid) : option Eid :=
  match entityToSpawn with
  | Some e => if (e =? 0)%N then None else Some e
  | None => None
  end.

(** The payload of a touch-start event: [e.data.worldPosition]. *)
Record TouchEvent : Type := mkTouch {
  worldPosition : Props
}.

(** The record literal passed to [ecs.ScaleAnimation.set]
    (lines 201-212). *)
Definition scaleAnimationProps (randomScale : double) : Props :=
  {[ "fromX" := VNum 0;
     "fromY" := VNum 0;
     "fromZ" := VNum 0;
     "toX" := VNum randomScale;
     "toY" := VNum randomScale;
     "toZ" := VNum randomScale;
     "duration" := VNum 400;
     "loop" := VBool false;
     "easeOut" := VBool true;
     "easingFunction" := VStr "Quadratic" ]}.

Definition missingTemplateMessage : string :=
  "Couldn't create a clone. Did you forget to set entityToSpawn in the properties?".

(** [onEnter] of the state ["default"] (lines 174-181). *)
Definition onEnter (eid : Eid) (rt : Runtime) : Runtime :=
  match truthy (entityToSpawn (schemaAttribute_get rt eid)) with
  | Some template => with_world rt (set Disabled (world rt) template ∅)
  | None => rt
  end.

(** [Math.random() * (maxScale - minScale) + minScale] (line 196), in
    the order JavaScript evaluates it: the difference, the product,
    the sum, each rounded. *)
Definition randomScaleOf (random mn mx : double) : double :=
  fadd (fmul random (fsub mx mn)) mn.

(** Lines 194-217 of the listener: the template test, with the spawn
    in its true branch and the report in its false branch. *)
Definition spawnOrReport (cfg : TapPlaceSchema) (random : double) (e : TouchEvent)
    (rt : Runtime) : Runtime :=
  match truthy (entityToSpawn cfg) with
  | Some template =>
      let '(newEntity, w) := createEntity (world rt) in
      let randomScale := randomScaleOf random (minScale cfg) (maxScale cfg) in
      let w := cloneComponents template newEntity w in
      let w := set Position w newEntity (worldPosition e) in
      let w := set ScaleAnimation w newEntity (scaleAnimationProps randomScale) in
      with_world rt w
  | None => console_error rt missingTemplateMessage
  end.

(** The [SCREEN_TOUCH_START] listener (lines 182-218).  [now] is what
    [Date.now()] returns and [random] what [Math.random()] returns in
    this call. *)
Definition touchStart (eid : Eid) (now : Z) (random : double) (e : TouchEvent)
    (rt : Runtime) : Runtime :=
  let cfg := schemaAttribute_get rt eid in
  let currentTime := now in
  if currentTime - lastInteractionTime (dataAttribute_get rt eid) <=? 500 then
    rt
  else
    let rt := dataAttribute_set rt eid (mkData currentTime) in
    spawnOrReport cfg random e rt.

(** Attaching the component to [eid] with a given schema value, as the
    scene configuration does. *)
Definition configure (eid : Eid) (cfg : TapPlaceSchema) (rt : Runtime) : Runtime :=
  mkRuntime (world rt) (<[eid := cfg]> (schemaAttribute rt)) (dataAttribute rt)
            (console rt).

(** ** The registry as the specification enumerates it *)

(** The groups of the enumeration: position, orientation, scale, shadow
    flag, box geometry, material, the animation kinds, the
    custom-property/vector animations, the follow/look-at behaviours,
    model reference, collider, particle emitter, UI, audio. *)
Inductive KindGroup : Type :=
  | GPosition
  | GOrientation
  | GScale
  | GShadowFlag
  | GBoxGeometry
  | GMaterial
  | GAnimation
  | GCustomAnimation
  | GFollowLookAt
  | GModelReference
  | GCollider
  | GParticleEmitter
  | GUi
  | GAudio
  | GUnlisted.

#[global] Instance KindGroup_eq_dec : EqDecision KindGroup.
Proof. solve_decision. Defined.

Definition kindGroup (c : Component) : KindGroup :=
  match c with
  | Position => GPosition
  | Quaternion => GOrientation
  | Scale => GScale
  | Shadow => GShadowFlag
  | BoxGeometry => GBoxGeometry
  | Material => GMaterial
  | ScaleAnimation | PositionAnimation | RotateAnimation => GAnimation
  | CustomPropertyAnimation | CustomVec3Animation => GCustomAnimation
  | FollowAnimation | LookAtAnimation => GFollowLookAt
  | GltfModel => GModelReference
  | Collider => GCollider
  | ParticleEmitter => GParticleEmitter
  | Ui => GUi
  | Audio => GAudio
  | Disabled | OtherKind _ => GUnlisted
  end.

(** Consecutive members of one group, counted: the shape of an ordered
    list of kinds. *)
Fixpoint groupRuns (gs : list KindGroup) : list (KindGroup * nat) :=
  match gs with
  | [] => []
  | g :: rest =>
      match groupRuns rest with
      | (g', n) :: runs =>
          if decide (g = g') then (g, S n) :: runs else (g, 1%nat) :: (g', n) :: runs
      | [] => [(g, 1%nat)]
      end
  end.

Definition registryShape (ks : list Component) : list (KindGroup * nat) :=
  groupRuns (map kindGroup ks).

(** The enumeration in the specification's words: one kind each of
    position, orientation, scale, shadow flag, box geometry and
    material, then "the four animation kinds", the two
    custom-property/vector animations, the two follow/look-at
    behaviours, and one kind each of model reference, collider,
    particle emitter, UI and audio. *)
Definition specRegistryShape : list (KindGroup * nat) :=
  [ (GPosition, 1); (GOrientation, 1); (GScale, 1); (GShadowFlag, 1);
    (GBoxGeometry, 1); (GMaterial, 1); (GAnimation, 4);
    (GCustomAnimation, 2); (GFollowLookAt, 2); (GModelReference, 1);
    (GCollider, 1); (GParticleEmitter, 1); (GUi, 1); (GAudio, 1) ]%nat.

(** The same enumeration with the three animation kinds the source
    lists: scale, position and rotate animation. *)
Definition codeRegistryShape : list (KindGroup * nat) :=
  [ (GPosition, 1); (GOrientation, 1); (GScale, 1); (GShadowFlag, 1);
    (GBoxGeometry, 1); (GMaterial, 1); (GAnimation, 3);
    (GCustomAnimation, 2); (GFollowLookAt, 2); (GModelReference, 1);
    (GCollider, 1); (GParticleEmitter, 1); (GUi, 1); (GAudio, 1) ]%nat.

(** The stored timestamp of the controller on [eid]. *)
Definition lastOf (eid : Eid) (rt : Runtime) : Z :=
  lastInteractionTime (dataAttribute_get rt eid).

(** [b] comes more than 500 ms after [a]. *)
Definition gap (a b : Z) : Prop := 500 < b - a.

(** ** Sequences of touch events *)

(** One delivery of a touch-start event: the clock reading, the random
    draw and the payload of that call of the listener. *)
Record Tap : Type := mkTap {
  tapTime : Z;
  tapRandom : double;
  tapEvent : TouchEvent
}.

Definition deliver (eid : Eid) (rt : Runtime) (t : Tap) : Runtime :=
  touchStart eid (tapTime t) (tapRandom t) (tapEvent t) rt.

(** Events are handled one at a time, each to completion. *)
Definition run (eid : Eid) (taps : list Tap) (rt : Runtime) : Runtime :=
  foldl (deliver eid) rt taps.

(** The clock readings of the taps that passed the cooldown test, in
    order of delivery. *)
Fixpoint acceptedTimes (eid : Eid) (taps : list Tap) (rt : Runtime) : list Z :=
  match taps with
  | [] => []
  | t :: rest =>
      let rt' := deliver eid rt t in
      if tapTime t - lastInteractionTime (dataAttribute_get rt eid) <=? 500
      then acceptedTimes eid rest rt'
      else tapTime t :: acceptedTimes eid rest rt'
  end.

(** The clock readings of the taps during which an entity was created
    (the allocation counter of the world moved), in order of
    delivery. *)
Fixpoint spawnTimes (eid : Eid) (taps : list Tap) (rt : Runtime) : list Z :=
  match taps with
  | [] => []
  | t :: rest =>
      let rt' := deliver eid rt t in
      if (nextEntity (world rt') =? nextEntity (world rt))%N
      then spawnTimes eid rest rt'
      else tapTime t :: spawnTimes eid rest rt'
  end.

(** ** A sample scene *)

(** A scene with a controlled entity [3], a template [7] carrying a
    position, a material, a model and a looping scale animation, and a
    bystander [9] carrying a position and an audio source. *)
Definition sampleController : Eid := 3%N.
Definition sampleTemplate : Eid := 7%N.
Definition sampleBystander : Eid := 9%N.

Definition vec3 (x y z : double) : Props :=
  {[ "x" := VNum x; "y" := VNum y; "z" := VNum z ]}.

Definition sampleWorld : World :=
  mkWorld 10%N
    {[ (Position, sampleTemplate) := vec3 1 2 3;
       (Material, sampleTemplate) := {[ "color" := VStr "#ff0000" ]};
       (GltfModel, sampleTemplate) := {[ "url" := VStr "tree.glb" ]};
       (ScaleAnimation, sampleTemplate) :=
         {[ "loop" := VBool true; "duration" := VNum 9000 ]};
       (Position, sampleBystander) := vec3 0 0 0;
       (Audio, sampleBystander) := {[ "url" := VStr "birds.mp3" ]} ]}.

Definition sampleRuntime : Runtime :=
  mkRuntime sampleWorld {[ sampleController := mkSchema (Some sampleTemplate) 1 3 ]}
            ∅ [].

Definition sampleTouch : TouchEvent := mkTouch (vec3 5 0 (-2)).

(** The same scene with the template left unset, and with equal scale
    bounds. *)
Definition sampleUnconfigured : Runtime :=
  configure sampleController (mkSchema None 1 3) sampleRuntime.

Definition sampleDegenerate : Runtime :=
  configure sampleController (mkSchema (Some sampleTemplate) 2 2) sampleRuntime.

(** Four taps, at 1000, 1400, 1600 and 2000 ms. *)
Definition sampleTaps : list Tap :=
  [ mkTap 1000 (draw 1 1) sampleTouch;
    mkTap 1400 (draw 1 2) sampleTouch;
    mkTap 1600 (draw 3 2) sampleTouch;
    mkTap 2000 0 sampleTouch ].

(** * The LINE login flow (lines 3-112) *)

(** ** Values, errors and the console *)

(** What a [throw] or a rejected promise carries: [new Error(message)],
    the [TypeError] of reading a property of [undefined], or whatever
    the LIFF SDK throws. *)
Inductive JsError : Type :=
  | ErrorOf (message : string)
  | TypeErrorOf (property : string)
  | SdkFailure (reason : string).

(** How a call or an awaited promise ends: with a value, with an
    exception (a rejection, when awaited), or never (a promise that
    never settles). *)
Inductive Completion (A : Type) : Type :=
  | Done (a : A)
  | Throw (error : JsError)
  | Never.

Arguments Done {A} a.
Arguments Throw {A} error.
Arguments Never {A}.

Inductive ConsoleArg : Type :=
  | Text (s : string)
  | Thrown (error : JsError).

(** A call of [console.log] or of [console.error], with its
    arguments. *)
Inductive ConsoleEntry : Type :=
  | LogEntry (args : list ConsoleArg)
  | ErrorEntry (args : list ConsoleArg).

Definition isErrorEntry (entry : ConsoleEntry) : bool :=
  match entry with
  | ErrorEntry _ => true
  | LogEntry _ => false
  end.

(** ** The LIFF SDK, the document and the window *)

(** The two fields of the LIFF profile that the source reads. *)
Record Profile : Type := mkProfile {
  profileUserId : string;
  profileDisplayName : string
}.

(** The object [initializeLiff] resolves with. *)
Record UserInfo : Type := mkUserInfo {
  userId : string;
  displayName : string
}.

(** The four members of [window.liff] that the source calls, each
    given by how the call ends. *)
Record LiffSdk : Type := mkLiffSdk {
  init : string -> Completion unit;
  isLoggedIn : Completion bool;
  login : Completion unit;
  getProfile : Completion Profile
}.

Inductive LiffCall : Type :=
  | CallInit (liffId : string)
  | CallIsLoggedIn
  | CallLogin
  | CallGetProfile.

(** What becomes of the injected [script] element: [onload] fires,
    after the script has defined [window.liff] or not; [onerror] fires;
    or neither ever fires. *)
Inductive ScriptLoad : Type :=
  | Loaded (defines : option LiffSdk)
  | LoadFailed
  | LoadPending.

Record Element : Type := mkElement {
  tagName : string;
  elementSrc : option string;
  elementStyle : gmap string string;
  textContent : string
}.

(** A camera pipeline module: its [name] and the arguments its
    [onStart] callback passes to [console.log]. *)
Record PipelineModule : Type := mkPipelineModule {
  moduleName : string;
  onStart : list ConsoleArg
}.

Record XR8 : Type := mkXR8 {
  xr8LineUserId : option string;
  xr8LineDisplayName : option string;
  cameraPipelineModules : list PipelineModule
}.

(** The state the script works on: the properties of [window] it reads
    and writes, the children of [document.head] and [document.body],
    the console, the calls made on [window.liff], and the two [let]
    variables of the enclosing function. *)
Record Page : Type := mkPage {
  windowLiff : option LiffSdk;
  windowLineUserId : option string;
  windowLineDisplayName : option string;
  windowXR8 : option XR8;
  documentHead : list Element;
  documentBody : list Element;
  pageConsole : list ConsoleEntry;
  liffCalls : list LiffCall;
  lineUserId : option string;
  lineDisplayName : option string
}.

(** ** Statements with state and exceptions *)

Definition Script (A : Type) : Type := Page -> Page * Completion A.

Definition ret {A : Type} (a : A) : Script A :=
  fun p => (p, Done a).

Definition bind {A B : Type} (m : Script A) (k : A -> Script B) : Script B :=
  fun p =>
    match m p with
    | (p', Done a) => k a p'
    | (p', Throw error) => (p', Throw error)
    | (p', Never) => (p', Never)
    end.

(** [try { body } catch (error) { handler }]: a body that never
    completes is not caught. *)
Definition tryCatch {A : Type} (body : Script A) (handler : JsError -> Script A)
    : Script A :=
  fun p =>
    match body p with
    | (p', Throw error) => handler error p'
    | (p', Done a) => (p', Done a)
    | (p', Never) => (p', Never)
    end.

Declare Scope script_scope.
Delimit Scope script_scope with script.
Notation "x <- m ;; k" := (bind m (fun x => k))
  (at level 100, m at next level, right associativity) : script_scope.
Notation "m ;; k" := (bind m (fun _ => k))
  (at level 100, right associativity) : script_scope.

Definition modifyPage (f : Page -> Page) : Script unit :=
  fun p => (f p, Done tt).

Definition consoleLog (args : list ConsoleArg) : Script unit :=
  modifyPage (fun p =>
    mkPage (windowLiff p) (windowLineUserId p) (windowLineDisplayName p)
           (windowXR8 p) (documentHead p) (documentBody p)
           (pageConsole p ++ [LogEntry args]) (liffCalls p)
           (lineUserId p) (lineDisplayName p)).

Definition consoleErrorEntry (args : list ConsoleArg) : Script unit :=
  modifyPage (fun p =>
    mkPage (windowLiff p) (windowLineUserId p) (windowLineDisplayName p)
           (windowXR8 p) (documentHead p) (documentBody p)
           (pageConsole p ++ [ErrorEntry args]) (liffCalls p)
           (lineUserId p) (lineDisplayName p)).

(** [document.head.appendChild(element)] *)
Definition appendHead (element : Element) (p : Page) : Page :=
  mkPage (windowLiff p) (windowLineUserId p) (windowLineDisplayName p)
         (windowXR8 p) (documentHead p ++ [element]) (documentBody p)
         (pageConsole p) (liffCalls p) (lineUserId p) (lineDisplayName p).

(** [document.body.appendChild(element)] *)
Definition appendBody (element : Element) (p : Page) : Page :=
  mkPage (windowLiff p) (windowLineUserId p) (windowLineDisplayName p)
         (windowXR8 p) (documentHead p) (documentBody p ++ [element])
         (pageConsole p) (liffCalls p) (lineUserId p) (lineDisplayName p).

Definition setWindowLiff (sdk : option LiffSdk) (p : Page) : Page :=
  mkPage sdk (windowLineUserId p) (windowLineDisplayName p)
         (windowXR8 p) (documentHead p) (documentBody p)
         (pageConsole p) (liffCalls p) (lineUserId p) (lineDisplayName p).

Definition setWindowLine (uid name : string) (p : Page) : Page :=
  mkPage (windowLiff p) (Some uid) (Some name)
         (windowXR8 p) (documentHead p) (documentBody p)
         (pageConsole p) (liffCalls p) (lineUserId p) (lineDisplayName p).

Definition setWindowXR8 (xr8 : option XR8) (p : Page) : Page :=
  mkPage (windowLiff p) (windowLineUserId p) (windowLineDisplayName p)
         xr8 (documentHead p) (documentBody p)
         (pageConsole p) (liffCalls p) (lineUserId p) (lineDisplayName p).

Definition setClosureLine (uid name : string) (p : Page) : Page :=
  mkPage (windowLiff p) (windowLineUserId p) (windowLineDisplayName p)
         (windowXR8 p) (documentHead p) (documentBody p)
         (pageConsole p) (liffCalls p) (Some uid) (Some name).

Definition recordCall (call : LiffCall) (p : Page) : Page :=
  mkPage (windowLiff p) (windowLineUserId p) (windowLineDisplayName p)
         (windowXR8 p) (documentHead p) (documentBody p)
         (pageConsole p) (liffCalls p ++ [call]) (lineUserId p) (lineDisplayName p).

(** Reading [window.liff.<property>]: a [TypeError] when [window.liff]
    is undefined. *)
Definition getLiff (property : string) : Script LiffSdk :=
  fun p =>
    match windowLiff p with
    | Some sdk => (p, Done sdk)
    | None => (p, Throw (TypeErrorOf property))
    end.

(** Calling a member of [window.liff] (and awaiting it, where the
    source does): the call is made, and ends as the SDK decides. *)
Definition liffCall {A : Type} (call : LiffCall) (outcome : Completion A)
    : Script A :=
  fun p => (recordCall call p, outcome).

(** ** The functions of the source *)

Definition LIFF_ID : string := "2006122616-D8z3YdeZ".

Definition liffSdkUrl : string := "https://static.line-scdn.net/liff/edge/2/sdk.js".

(** The [script] element of lines 18-19. *)
Definition liffSdkScript : Element :=
  mkElement "script" (Some liffSdkUrl) ∅ "".

(** [loadLiffSDK] (lines 11-24), awaited.  With [window.liff] truthy
    the promise resolves at once; otherwise the script element is
    appended to the head and the promise settles with the element's
    [onload] or [onerror]. *)
Definition loadLiffSDK (load : ScriptLoad) : Script unit :=
  fun p =>
    match windowLiff p with
    | Some _ => (p, Done tt)
    | None =>
        let p := appendHead liffSdkScript p in
        match load with
        | Loaded defines => (setWindowLiff defines p, Done tt)
        | LoadFailed => (p, Throw (ErrorOf "Failed to load LIFF SDK"))
        | LoadPending => (p, Never)
        end
    end.

(** The [try] block of [initializeLiff] (lines 32-50). *)
Definition initializeLiffBody (load : ScriptLoad) : Script (option UserInfo) :=
  (loadLiffSDK load ;;
   sdk <- getLiff "init" ;;
   liffCall (CallInit LIFF_ID) (init sdk LIFF_ID) ;;
   consoleLog [Text "LIFF initialized successfully"] ;;
   sdk <- getLiff "isLoggedIn" ;;
   loggedIn <- liffCall CallIsLoggedIn (isLoggedIn sdk) ;;
   if negb loggedIn then
     consoleLog [Text "User not logged in, redirecting to LINE login"] ;;
     sdk <- getLiff "login" ;;
     liffCall CallLogin (login sdk) ;;
     ret None
   else
     sdk <- getLiff "getProfile" ;;
     profile <- liffCall CallGetProfile (getProfile sdk) ;;
     consoleLog [Text "User authenticated:"; Text (profileDisplayName profile)] ;;
     ret (Some (mkUserInfo (profileUserId profile) (profileDisplayName profile))))%script.

(** [initializeLiff] (lines 27-55). *)
Definition initializeLiff (load : ScriptLoad) : Script (option UserInfo) :=
  tryCatch (initializeLiffBody load)
    (fun error =>
       (consoleErrorEntry
          [Text "LIFF initialization or authentication failed"; Thrown error] ;;
        ret None)%script).

(** The [div] that [createUserDisplay] builds (lines 59-72). *)
Definition userDisplayElement (name : string) : Element :=
  mkElement "div" None
    (<["pointerEvents" := "none"]>
     (<["zIndex" := "1000"]>
     (<["fontSize" := "14px"]>
     (<["fontFamily" := "Arial, sans-serif"]>
     (<["borderRadius" := "4px"]>
     (<["padding" := "8px 12px"]>
     (<["color" := "white"]>
     (<["backgroundColor" := "rgba(0, 0, 0, 0.5)"]>
     (<["left" := "20px"]>
     (<["bottom" := "20px"]>
     (<["position" := "fixed"]> ∅)))))))))))
    ("User: " +:+ name).

(** [createUserDisplay] (lines 58-76). *)
Definition createUserDisplay (name : string) : Script unit :=
  (modifyPage (appendBody (userDisplayElement name)) ;;
   consoleLog [Text "User display created for:"; Text name])%script.

(** The module registered at lines 92-97. *)
Definition lineAuthModule (name : string) : PipelineModule :=
  mkPipelineModule "line-auth"
    [Text "8thWall camera started with LINE user:"; Text name].

(** [if (window.XR8) { ... }] with a body that updates the object. *)
Definition whenXR8 (update : XR8 -> XR8) : Script unit :=
  modifyPage (fun p =>
    match windowXR8 p with
    | Some xr8 => setWindowXR8 (Some (update xr8)) p
    | None => p
    end).

(** [setupWith8thWall] (lines 79-99). *)
Definition setupWith8thWall (uid name : string) : Script unit :=
  (modifyPage (setWindowLine uid name) ;;
   whenXR8 (fun xr8 => mkXR8 (Some uid) (Some name) (cameraPipelineModules xr8)) ;;
   consoleLog [Text "LINE user info stored for 8thWall:"; Text uid; Text name] ;;
   createUserDisplay name ;;
   whenXR8 (fun xr8 =>
     mkXR8 (xr8LineUserId xr8) (xr8LineDisplayName xr8)
           (cameraPipelineModules xr8 ++ [lineAuthModule name])))%script.

(** The main execution (lines 102-111). *)
Definition main (load : ScriptLoad) : Script unit :=
  tryCatch
    (userInfo <- initializeLiff load ;;
     match userInfo with
     | Some info =>
         modifyPage (setClosureLine (userId info) (displayName info)) ;;
         setupWith8thWall (userId info) (displayName info)
     | None => ret tt
     end)%script
    (fun error =>
       consoleErrorEntry [Text "LINE authentication process failed:"; Thrown error]).

(** The SDK the script talks to once [loadLiffSDK] has resolved: the
    one already on the page, or else the one the injected script
    defines. *)
Definition sdkAfterLoad (load : ScriptLoad) (p : Page) : option LiffSdk :=
  match windowLiff p with
  | Some sdk => Some sdk
  | None =>
      match load with
      | Loaded defines => defines
      | LoadFailed | LoadPending => None
      end
  end.

(** ** Sample pages *)

Definition sampleProfile : Profile := mkProfile "U4af4980629" "Brown".

(** An SDK with a logged-in user, one with a logged-out user, and one
    whose [init] rejects. *)
Definition sampleSdk : LiffSdk :=
  mkLiffSdk (fun _ => Done tt) (Done true) (Done tt) (Done sampleProfile).

Definition sampleSdkLoggedOut : LiffSdk :=
  mkLiffSdk (fun _ => Done tt) (Done false) (Done tt) (Done sampleProfile).

Definition sampleSdkInitFails : LiffSdk :=
  mkLiffSdk (fun _ => Throw (SdkFailure "INVALID_ARGUMENT")) (Done true) (Done tt)
            (Done sampleProfile).

(** A page without the SDK and without [XR8], and one with [XR8]. *)
Definition samplePage : Page :=
  mkPage None None None None [] [] [] [] None None.

Definition samplePageXR8 : Page :=
  mkPage None None None (Some (mkXR8 None None [])) [] [] [] [] None None.

(** * Further notions for the Tap Place component *)

(** Every attribute in the table belongs to an entity that
    [createEntity] has already handed out. *)
Definition worldFresh (w : World) : Prop :=
  map_Forall (fun (key : Component * Eid) (_ : Props) => (key.2 < nextEntity w)%N)
             (components w).

#[global] Instance worldFresh_dec (w : World) : Decision (worldFresh w).
Proof. unfold worldFresh. apply _. Defined.

(** * Notions for the rounding of binary64 arithmetic *)

(** The operations of [SpecFloat] compute on mantissas and exponents.
    The notions below say what they compute: the value of a number as
    an integer multiple of [2^-2148], the canonical form of mantissa
    and exponent, and the mantissa and exponent to which an exact
    value is rounded. *)

(** [f] applied [n] times. *)
Fixpoint iter_nat {A : Type} (f : A -> A) (n : nat) (x : A) : A :=
  match n with
  | O => x
  | S n => f (iter_nat f n x)
  end.

(** What the right shift of [SpecFloat] holds after shifting the
    integer [M] by [n] bits: the quotient, and the round and sticky
    bits, which place the remainder [R] with respect to half a unit. *)
Definition shr_inv (M : Z) (n : Z) (mrs : shr_record) : Prop :=
  0 <= shr_m mrs /\
  exists R, M = shr_m mrs * 2 ^ n + R /\ 0 <= R < 2 ^ n /\
    (shr_r mrs = true <-> 2 ^ n <= 2 * R) /\
    (shr_s mrs = true <-> (R <> 0 /\ 2 * R <> 2 ^ n)).

(** The number with sign [sx], mantissa [m2 <= 2^53] and exponent
    [e']: a mantissa of [2^53] moves to the next exponent, and an
    exponent above [971] overflows to an infinity. *)
Definition pack (sx : bool) (m2 e' : Z) : double :=
  match m2 with
  | Zpos p =>
      if m2 <? 2 ^ 53 then
        if e' <=? 971 then S754_finite sx p e' else S754_infinity sx
      else
        if e' + 1 <=? 971 then S754_finite sx (Z.to_pos (2 ^ 52)) (e' + 1)
        else S754_infinity sx
  | _ => S754_zero sx
  end.

(** Rounding to nearest, ties to even: the quotient [q] of a division
    by [2^n] that left the remainder [R], rounded. *)
Definition rne (q R n : Z) : Z :=
  if R =? 0 then q
  else if 2 * R <? 2 ^ n then q
  else if 2 * R =? 2 ^ n then (if Z.even q then q else q + 1)
  else q + 1.

(** [2^e] in units of [2^-2148]: an integer for every exponent that a
    number, or the exact product of two numbers, can have. *)
Definition p2 (e : Z) : Z := 2 ^ (e + 2148).

(** The value of a finite number in units of [2^-2148]; [0] for an
    infinity and for NaN. *)
Definition val (x : double) : Z :=
  match x with
  | S754_finite s m e => cond_Zopp s (Zpos m * p2 e)
  | _ => 0
  end.

(** Mantissa and exponent in canonical form: the mantissa has at most
    53 bits, and exactly 53 bits unless the exponent is the least one
    (a subnormal number). *)
Definition canon (m e : Z) : Prop :=
  0 < m < 2 ^ 53 /\ -1074 <= e <= 971 /\ (e = -1074 \/ 2 ^ 52 <= m).

(** A finite number in canonical form: a zero of either sign, or a
    normal or subnormal number.  These are the finite values of
    binary64. *)
Definition valid (x : double) : Prop :=
  valid_binary 53 1024 x = true /\ finite x = true.

(** The exponent and the mantissa to which the exact value [M * 2^e]
    is rounded. *)
Definition rnd_e (M e : Z) : Z := fexp 53 1024 (Zdigits2 M + e).

Definition rnd_m (M e : Z) : Z :=
  let t := rnd_e M e in
  if t <=? e then M * 2 ^ (e - t)
  else rne (M / 2 ^ (t - e)) (M mod 2 ^ (t - e)) (t - e).

(** The signed mantissa of a number once it is written with the
    exponent [ez], at most its own. *)
Definition aligned (s : bool) (m : positive) (e ez : Z) : Z :=
  cond_Zopp s (Zpos (fst (shl_align m e ez))).

(** The magnitude [v] results from rounding the exact magnitude [D]:
    it is at most [D], or it is the successor [(q + 1) * 2^t] of a
    normal number [q * 2^t] that is at most [D]. *)
Definition rounded_from (v D : Z) : Prop :=
  v <= D \/
  exists q t, 2 ^ 52 <= q < 2 ^ 53 /\ -1074 <= t <= 971 /\
    v = (q + 1) * p2 t /\ q * p2 t <= D.

(** * Properties *)

(** ** The attribute table under [set] and [createEntity] *)

Lemma components_set k w e p k' e' :
  components (set k w e p) !! (k', e') =
    if decide ((k, e) = (k', e')) then Some p else components w !! (k', e').
Proof. unfold set; simpl. apply lookup_insert. Qed.

Lemma nextEntity_set k w e p : nextEntity (set k w e p) = nextEntity w.
Proof. reflexivity. Qed.

Lemma has_true k w e : has k w e = true <-> is_Some (components w !! (k, e)).
Proof. unfold has. apply bool_decide_eq_true. Qed.

Lemma has_false k w e : has k w e = false <-> components w !! (k, e) = None.
Proof.
  unfold has. rewrite bool_decide_eq_false. split.
  - intros H. destruct (components w !! (k, e)) eqn:E; [|done].
    exfalso. apply H. eauto.
  - intros -> [x Hx]. discriminate.
Qed.

Lemma get_has k w e : has k w e = true -> components w !! (k, e) = Some (get k w e).
Proof.
  rewrite has_true. intros [p Hp]. unfold get. by rewrite Hp.
Qed.

(** ** The cloner *)

Section Cloner.
Variables sourceEid targetEid : Eid.

(** One callback never changes what the source carries, also when
    the target is the source itself. *)
Lemma cloneComponent_source w c k :
  components (cloneComponent sourceEid targetEid w c) !! (k, sourceEid)
  = components w !! (k, sourceEid).
Proof.
  unfold cloneComponent. destruct (has c w sourceEid) eqn:Hh; [|done].
  unfold spread. rewrite components_set. case_decide as Heq; [|done].
  inversion Heq; subst. symmetry. by apply get_has.
Qed.

Lemma cloneComponent_nextEntity w c :
  nextEntity (cloneComponent sourceEid targetEid w c) = nextEntity w.
Proof. unfold cloneComponent. by destruct (has c w sourceEid). Qed.

Lemma cloneComponent_lookup w c k e :
  components (cloneComponent sourceEid targetEid w c) !! (k, e) =
    if decide (e = targetEid /\ k = c /\ is_Some (components w !! (k, sourceEid)))
    then components w !! (k, sourceEid)
    else components w !! (k, e).
Proof.
  unfold cloneComponent. destruct (has c w sourceEid) eqn:Hh.
  - unfold spread. rewrite components_set.
    case_decide as Heq.
    + inversion Heq; subst. rewrite decide_True.
      * symmetry. by apply get_has.
      * split_and!; [done..|]. by apply has_true.
    + rewrite decide_False; [done|]. intros (-> & -> & _). by apply Heq.
  - rewrite decide_False; [done|]. intros (-> & -> & Hs).
    apply has_false in Hh. rewrite Hh in Hs. by destruct Hs.
Qed.

(** The fold over any list of kinds, read at any cell of the table. *)
Lemma foldl_cloneComponent_lookup ks w k e :
  components (foldl (cloneComponent sourceEid targetEid) w ks) !! (k, e) =
    if decide (e = targetEid /\ k ∈ ks /\ is_Some (components w !! (k, sourceEid)))
    then components w !! (k, sourceEid)
    else components w !! (k, e).
Proof.
  revert w. induction ks as [|c ks IH]; intros w; simpl.
  - rewrite decide_False; [done|]. intros (_ & Hin & _). by apply elem_of_nil in Hin.
  - rewrite IH. rewrite !cloneComponent_source.
    destruct (decide (e = targetEid /\ k ∈ ks /\ is_Some (components w !! (k, sourceEid))))
      as [(-> & Hin & Hs)|Hn].
    + rewrite decide_True; [done|]. split_and!; [done| |done]. apply elem_of_cons; by right.
    + rewrite cloneComponent_lookup.
      destruct (decide (e = targetEid /\ k = c /\ is_Some (components w !! (k, sourceEid))))
        as [(-> & -> & Hs)|Hn'].
      * rewrite decide_True; [done|]. split_and!; [done| |done]. apply elem_of_cons; by left.
      * rewrite decide_False; [done|]. intros (-> & Hin & Hs).
        apply elem_of_cons in Hin as [->|Hin]; [by apply Hn'|by apply Hn].
Qed.

Lemma foldl_cloneComponent_nextEntity ks w :
  nextEntity (foldl (cloneComponent sourceEid targetEid) w ks) = nextEntity w.
Proof.
  revert w. induction ks as [|c ks IH]; intros w; simpl; [done|].
  by rewrite IH, cloneComponent_nextEntity.
Qed.

Lemma cloneComponents_lookup w k e :
  components (cloneComponents sourceEid targetEid w) !! (k, e) =
    if decide (e = targetEid /\ k ∈ componentsForClone
               /\ is_Some (components w !! (k, sourceEid)))
    then components w !! (k, sourceEid)
    else components w !! (k, e).
Proof. apply foldl_cloneComponent_lookup. Qed.

Lemma cloneComponents_nextEntity w :
  nextEntity (cloneComponents sourceEid targetEid w) = nextEntity w.
Proof. apply foldl_cloneComponent_nextEntity. Qed.

Lemma foldl_cloneComponent_writes w0 ks w :
  (forall k, components w !! (k, sourceEid) = components w0 !! (k, sourceEid)) ->
  foldl (cloneComponent sourceEid targetEid) w ks
  = foldl (writeFrom sourceEid targetEid w0) w (cloneWrites sourceEid w0 ks).
Proof.
  revert w. induction ks as [|c ks IH]; intros w Hagree; simpl; [done|].
  assert (Hhas : has c w sourceEid = has c w0 sourceEid).
  { unfold has. by rewrite Hagree. }
  assert (Hget : get c w sourceEid = get c w0 sourceEid).
  { unfold get. by rewrite Hagree. }
  unfold cloneWrites. rewrite filter_cons.
  rewrite IH.
  - unfold cloneComponent at 1. rewrite Hhas.
    destruct (has c w0 sourceEid) eqn:E.
    + rewrite decide_True by done. simpl. unfold writeFrom at 2, spread.
      by rewrite Hget.
    + rewrite decide_False by (by intros ?). done.
  - intros k. by rewrite cloneComponent_source.
Qed.
End Cloner.

(** ** Claims about the cloner *)

(** C3.  [cloneComponents source target world] copies, for every kind of
    the registry that the source carries, the source's record onto the
    target, overwriting what the target had; it leaves on the target
    every kind the source does not carry, leaves every other entity's
    attributes alone, and creates no entity.  The writes happen in
    registry order: the result is the sequence of [set]s on the target,
    one per registry kind present on the source, in list order, each
    with the source's value. *)
Theorem cloneComponents_copies_present_kinds
    (sourceEid targetEid : Eid) (w : World) :
  let w' := cloneComponents sourceEid targetEid w in
  (forall k, k ∈ componentsForClone -> has k w sourceEid = true ->
     has k w' targetEid = true /\ get k w' targetEid = get k w sourceEid) /\
  (forall k, has k w sourceEid = false ->
     components w' !! (k, targetEid) = components w !! (k, targetEid)) /\
  (forall k e, e <> targetEid ->
     components w' !! (k, e) = components w !! (k, e)) /\
  nextEntity w' = nextEntity w /\
  w' = foldl (writeFrom sourceEid targetEid w) w
             (cloneWrites sourceEid w componentsForClone).
Proof.
  intros w'. subst w'. split_and!.
  - intros k Hin Hhas.
    assert (Hl : components (cloneComponents sourceEid targetEid w) !! (k, targetEid)
                 = components w !! (k, sourceEid)).
    { rewrite cloneComponents_lookup. rewrite decide_True; [done|].
      split_and!; [done..|]. by apply has_true. }
    split.
    + apply has_true. rewrite Hl. by apply has_true.
    + unfold get. by rewrite Hl.
  - intros k Hno. rewrite cloneComponents_lookup.
    rewrite decide_False; [done|]. intros (_ & _ & Hs).
    apply has_false in Hno. rewrite Hno in Hs. by destruct Hs.
  - intros k e Hne. rewrite cloneComponents_lookup.
    rewrite decide_False; [done|]. by intros (-> & _).
  - apply cloneComponents_nextEntity.
  - unfold cloneComponents. by apply foldl_cloneComponent_writes.
Qed.

Lemma cloneComponents_copies_present_kinds_witness :
  Material ∈ componentsForClone /\
  has Material sampleWorld sampleTemplate = true /\
  has Audio sampleWorld sampleTemplate = false /\
  sampleTemplate <> sampleBystander /\
  let w' := cloneComponents sampleTemplate sampleBystander sampleWorld in
  (has Material w' sampleBystander = true /\
   get Material w' sampleBystander = get Material sampleWorld sampleTemplate) /\
  components w' !! (Audio, sampleBystander)
    = components sampleWorld !! (Audio, sampleBystander) /\
  components w' !! (Position, sampleTemplate)
    = components sampleWorld !! (Position, sampleTemplate).
Proof.
  assert (Hin : Material ∈ componentsForClone).
  { unfold componentsForClone. repeat (apply elem_of_cons; first [by left | right]). }
  assert (Hhas : has Material sampleWorld sampleTemplate = true) by (vm_compute; reflexivity).
  assert (Hno : has Audio sampleWorld sampleTemplate = false) by (vm_compute; reflexivity).
  assert (Hne : sampleTemplate <> sampleBystander) by discriminate.
  destruct (cloneComponents_copies_present_kinds sampleTemplate sampleBystander sampleWorld)
    as (Hcopy & Habsent & Hother & _).
  split; [exact Hin|]. split; [exact Hhas|]. split; [exact Hno|].
  split; [exact Hne|]. intros w'. split; [|split].
  - exact (Hcopy Material Hin Hhas).
  - exact (Habsent Audio Hno).
  - apply Hother. exact Hne.
Defined.

(** ** The listener, branch by branch *)

Section Listener.
Variable eid : Eid.

Lemma touchStart_ignored now random e rt :
  now - lastOf eid rt <= 500 -> touchStart eid now random e rt = rt.
Proof.
  intros H. unfold touchStart, lastOf in *.
  destruct (Z.leb_spec (now - lastInteractionTime (dataAttribute_get rt eid)) 500);
    [done|lia].
Qed.

Lemma touchStart_accepted now random e rt :
  500 < now - lastOf eid rt ->
  touchStart eid now random e rt
  = spawnOrReport (schemaAttribute_get rt eid) random e
      (dataAttribute_set rt eid (mkData now)).
Proof.
  intros H. unfold touchStart, lastOf in *.
  destruct (Z.leb_spec (now - lastInteractionTime (dataAttribute_get rt eid)) 500);
    [lia|done].
Qed.

Lemma spawnOrReport_spawn cfg random e rt template :
  truthy (entityToSpawn cfg) = Some template ->
  spawnOrReport cfg random e rt =
    let newEntity := nextEntity (world rt) in
    with_world rt
      (set ScaleAnimation
         (set Position
            (cloneComponents template newEntity
               (mkWorld (N.succ newEntity) (components (world rt))))
            newEntity (worldPosition e))
         newEntity
         (scaleAnimationProps (randomScaleOf random (minScale cfg) (maxScale cfg)))).
Proof. intros H. unfold spawnOrReport. by rewrite H. Qed.

Lemma spawnOrReport_report cfg random e rt :
  truthy (entityToSpawn cfg) = None ->
  spawnOrReport cfg random e rt = console_error rt missingTemplateMessage.
Proof. intros H. unfold spawnOrReport. by rewrite H. Qed.

Lemma spawnOrReport_dataAttribute cfg random e rt :
  dataAttribute (spawnOrReport cfg random e rt) = dataAttribute rt.
Proof.
  unfold spawnOrReport. by destruct (truthy (entityToSpawn cfg)).
Qed.

Lemma spawnOrReport_schemaAttribute cfg random e rt :
  schemaAttribute (spawnOrReport cfg random e rt) = schemaAttribute rt.
Proof.
  unfold spawnOrReport. by destruct (truthy (entityToSpawn cfg)).
Qed.

Lemma touchStart_schemaAttribute now random e rt :
  schemaAttribute (touchStart eid now random e rt) = schemaAttribute rt.
Proof.
  unfold touchStart.
  destruct (now - lastInteractionTime (dataAttribute_get rt eid) <=? 500); [done|].
  by rewrite spawnOrReport_schemaAttribute.
Qed.

Lemma lastOf_accepted now random e rt :
  500 < now - lastOf eid rt -> lastOf eid (touchStart eid now random e rt) = now.
Proof.
  intros H. rewrite touchStart_accepted by done.
  unfold lastOf, dataAttribute_get. rewrite spawnOrReport_dataAttribute. simpl.
  by rewrite lookup_insert_eq.
Qed.

(** An entity is created only by a tap that passed the cooldown
    test. *)
Lemma touchStart_nextEntity now random e rt :
  nextEntity (world (touchStart eid now random e rt)) <> nextEntity (world rt) ->
  500 < now - lastOf eid rt.
Proof.
  intros H. destruct (Z.le_gt_cases (now - lastOf eid rt) 500) as [Hle|Hgt]; [|lia].
  rewrite touchStart_ignored in H by done. done.
Qed.

(** Every recorded time is more than 500 ms after the stored
    timestamp, and the recorded times are more than 500 ms apart. *)
Lemma acceptedTimes_gap taps rt :
  Forall (gap (lastOf eid rt)) (acceptedTimes eid taps rt)
  /\ StronglySorted gap (acceptedTimes eid taps rt).
Proof.
  revert rt. induction taps as [|t taps IH]; intros rt; simpl.
  - split; constructor.
  - fold (lastOf eid rt).
    destruct (Z.leb_spec (tapTime t - lastOf eid rt) 500) as [Hle|Hgt].
    + unfold deliver. rewrite touchStart_ignored by done. apply IH.
    + destruct (IH (deliver eid rt t)) as [Hall Hsorted].
      unfold deliver in Hall at 1. rewrite lastOf_accepted in Hall by done.
      split.
      * constructor; [exact Hgt|].
        eapply Forall_impl; [exact Hall|]. unfold gap. intros; lia.
      * constructor; [exact Hsorted|exact Hall].
Qed.

Lemma spawnTimes_gap taps rt :
  Forall (gap (lastOf eid rt)) (spawnTimes eid taps rt)
  /\ StronglySorted gap (spawnTimes eid taps rt).
Proof.
  revert rt. induction taps as [|t taps IH]; intros rt; simpl.
  - split; constructor.
  - destruct (Z.le_gt_cases (tapTime t - lastOf eid rt) 500) as [Hle|Hgt].
    + unfold deliver. rewrite touchStart_ignored by done.
      rewrite N.eqb_refl. apply IH.
    + destruct (IH (deliver eid rt t)) as [Hall Hsorted].
      unfold deliver in Hall at 1. rewrite lastOf_accepted in Hall by lia.
      assert (Hall' : Forall (gap (lastOf eid rt)) (spawnTimes eid taps (deliver eid rt t))).
      { eapply Forall_impl; [exact Hall|]. unfold gap. intros; lia. }
      destruct (nextEntity (world (deliver eid rt t)) =? nextEntity (world rt))%N.
      * split; [exact Hall'|exact Hsorted].
      * split.
        -- constructor; [unfold gap; lia|exact Hall'].
        -- constructor; [exact Hsorted|exact Hall].
Qed.
End Listener.

(** ** Claims about the cooldown *)

(** C1.  A touch-start event that arrives at most 500 ms after the
    stored [lastInteractionTime] leaves the whole runtime as it was: the
    timestamp, the world (so no entity is created) and the console (so
    no error is reported).  Consequently, over any sequence of taps on
    one controlled entity, from any runtime, the taps that created an
    entity, and more generally the taps that passed the cooldown test,
    are pairwise more than 500 ms apart. *)
Theorem debounce_ignores_and_spaces_spawns (eid : Eid) (rt : Runtime) :
  (forall now random e,
     now - lastOf eid rt <= 500 -> touchStart eid now random e rt = rt) /\
  (forall taps, StronglySorted gap (spawnTimes eid taps rt)) /\
  (forall taps, StronglySorted gap (acceptedTimes eid taps rt)).
Proof.
  split; [|split].
  - intros now random e H. by apply touchStart_ignored.
  - intros taps. apply spawnTimes_gap.
  - intros taps. apply acceptedTimes_gap.
Qed.

Lemma debounce_ignores_and_spaces_spawns_witness :
  400 - lastOf sampleController sampleRuntime <= 500 /\
  touchStart sampleController 400 (draw 1 1) sampleTouch sampleRuntime = sampleRuntime /\
  spawnTimes sampleController sampleTaps sampleRuntime = [1000; 1600] /\
  StronglySorted gap (spawnTimes sampleController sampleTaps sampleRuntime).
Proof.
  assert (H : 400 - lastOf sampleController sampleRuntime <= 500)
    by (vm_compute; discriminate).
  destruct (debounce_ignores_and_spaces_spawns sampleController sampleRuntime)
    as (Hignore & Hspawn & _).
  split; [exact H|]. split; [exact (Hignore 400 (draw 1 1) sampleTouch H)|].
  split; [vm_compute; reflexivity|]. apply Hspawn.
Defined.

(** C2.  A tap that passes the cooldown test runs the template test and
    the spawn logic on the runtime in which [lastInteractionTime] is
    already the current time, and the timestamp is the current time
    afterwards in either branch.  With no template the listener only
    appends the configuration error to the console: the world is
    unchanged (no entity is created), the listener returns normally, and
    a second tap within 500 ms is ignored. *)
Theorem accepted_tap_updates_cooldown_first
    (eid : Eid) (now : Z) (random : double) (e : TouchEvent) (rt : Runtime) :
  500 < now - lastOf eid rt ->
  let rt' := touchStart eid now random e rt in
  rt' = spawnOrReport (schemaAttribute_get rt eid) random e
          (dataAttribute_set rt eid (mkData now)) /\
  lastOf eid rt' = now /\
  (truthy (entityToSpawn (schemaAttribute_get rt eid)) = None ->
     console rt' = console rt ++ [missingTemplateMessage] /\
     world rt' = world rt /\
     forall now2 random2 e2,
       now2 - now <= 500 -> touchStart eid now2 random2 e2 rt' = rt').
Proof.
  intros Hgt rt'. subst rt'. split; [|split].
  - by apply touchStart_accepted.
  - by apply lastOf_accepted.
  - intros Hnone.
    assert (Hlast := lastOf_accepted eid now random e rt Hgt).
    rewrite touchStart_accepted in * by done.
    rewrite spawnOrReport_report in * by done.
    split; [done|]. split; [done|].
    intros now2 random2 e2 H2. apply touchStart_ignored. rewrite Hlast. exact H2.
Qed.

Lemma accepted_tap_updates_cooldown_first_witness :
  500 < 1000 - lastOf sampleController sampleUnconfigured /\
  truthy (entityToSpawn (schemaAttribute_get sampleUnconfigured sampleController)) = None /\
  1400 - 1000 <= 500 /\
  let rt' := touchStart sampleController 1000 (draw 1 1) sampleTouch sampleUnconfigured in
  lastOf sampleController rt' = 1000 /\
  console rt' = [missingTemplateMessage] /\
  world rt' = sampleWorld /\
  touchStart sampleController 1400 (draw 1 2) sampleTouch rt' = rt'.
Proof.
  assert (Hgt : 500 < 1000 - lastOf sampleController sampleUnconfigured)
    by (vm_compute; reflexivity).
  assert (Hnone : truthy (entityToSpawn
            (schemaAttribute_get sampleUnconfigured sampleController)) = None)
    by (vm_compute; reflexivity).
  assert (H2 : 1400 - 1000 <= 500) by lia.
  destruct (accepted_tap_updates_cooldown_first sampleController 1000 (draw 1 1)
              sampleTouch sampleUnconfigured Hgt) as (_ & Hlast & Hrest).
  destruct (Hrest Hnone) as (Hcons & Hworld & Hsecond).
  split; [exact Hgt|]. split; [exact Hnone|]. split; [exact H2|].
  intros rt'. split; [exact Hlast|]. split; [exact Hcons|]. split; [exact Hworld|].
  exact (Hsecond 1400 (draw 1 2) sampleTouch H2).
Defined.

(** ** Claims about the spawned entity *)

Section Spawn.
Variables (eid : Eid) (now : Z) (random : double) (e : TouchEvent) (rt : Runtime).
Variable template : Eid.
Hypothesis Haccepted : 500 < now - lastOf eid rt.
Hypothesis Htemplate :
  truthy (entityToSpawn (schemaAttribute_get rt eid)) = Some template.

(** The world an accepted spawn leaves, as the chain of writes of
    lines 195-212. *)
Lemma touchStart_spawn_world :
  world (touchStart eid now random e rt) =
    let newEntity := nextEntity (world rt) in
    let cfg := schemaAttribute_get rt eid in
    set ScaleAnimation
      (set Position
         (cloneComponents template newEntity
            (mkWorld (N.succ newEntity) (components (world rt))))
         newEntity (worldPosition e))
      newEntity
      (scaleAnimationProps (randomScaleOf random (minScale cfg) (maxScale cfg))).
Proof.
  rewrite touchStart_accepted by exact Haccepted.
  rewrite (spawnOrReport_spawn _ _ _ _ template) by exact Htemplate.
  reflexivity.
Qed.

Lemma touchStart_spawn_nextEntity :
  nextEntity (world (touchStart eid now random e rt))
  = N.succ (nextEntity (world rt)).
Proof.
  rewrite touchStart_spawn_world. cbv zeta.
  rewrite !nextEntity_set. apply cloneComponents_nextEntity.
Qed.

Lemma touchStart_spawn_Position :
  components (world (touchStart eid now random e rt))
    !! (Position, nextEntity (world rt)) = Some (worldPosition e).
Proof.
  rewrite touchStart_spawn_world. cbv zeta.
  rewrite components_set, decide_False by discriminate.
  rewrite components_set. apply decide_True. reflexivity.
Qed.

Lemma touchStart_spawn_ScaleAnimation :
  components (world (touchStart eid now random e rt))
    !! (ScaleAnimation, nextEntity (world rt))
  = Some (scaleAnimationProps
            (randomScaleOf random (minScale (schemaAttribute_get rt eid))
               (maxScale (schemaAttribute_get rt eid)))).
Proof.
  rewrite touchStart_spawn_world. cbv zeta.
  rewrite components_set. apply decide_True. reflexivity.
Qed.

Lemma touchStart_spawn_get_ScaleAnimation :
  get ScaleAnimation (world (touchStart eid now random e rt)) (nextEntity (world rt))
  = scaleAnimationProps
      (randomScaleOf random (minScale (schemaAttribute_get rt eid))
         (maxScale (schemaAttribute_get rt eid))).
Proof. unfold get. by rewrite touchStart_spawn_ScaleAnimation. Qed.
End Spawn.

(** The fields of the record literal of lines 201-212. *)
Lemma scaleAnimationProps_fields (scale : double) :
  let anim := scaleAnimationProps scale in
  anim !! "fromX" = Some (VNum 0) /\
  anim !! "fromY" = Some (VNum 0) /\
  anim !! "fromZ" = Some (VNum 0) /\
  anim !! "toX" = Some (VNum scale) /\
  anim !! "toY" = Some (VNum scale) /\
  anim !! "toZ" = Some (VNum scale) /\
  anim !! "duration" = Some (VNum 400) /\
  anim !! "loop" = Some (VBool false) /\
  anim !! "easeOut" = Some (VBool true) /\
  anim !! "easingFunction" = Some (VStr "Quadratic").
Proof. cbv zeta. repeat split; vm_compute; reflexivity. Qed.

(** C5.  On an accepted spawn with a configured template, one entity is
    created and its position attribute is the [worldPosition] of the
    touch event, whatever position the template carries: the write of
    line 200 comes after the clone and replaces what the clone
    copied. *)
Theorem spawn_is_placed_at_tap
    (eid : Eid) (now : Z) (random : double) (e : TouchEvent) (rt : Runtime)
    (template : Eid) :
  500 < now - lastOf eid rt ->
  truthy (entityToSpawn (schemaAttribute_get rt eid)) = Some template ->
  let rt' := touchStart eid now random e rt in
  let newEntity := nextEntity (world rt) in
  nextEntity (world rt') = N.succ newEntity /\
  has Position (world rt') newEntity = true /\
  get Position (world rt') newEntity = worldPosition e.
Proof.
  intros Hgt Ht rt' newEntity. subst rt' newEntity.
  pose proof (touchStart_spawn_Position eid now random e rt template Hgt Ht) as Hp.
  split; [|split].
  - by apply (touchStart_spawn_nextEntity eid now random e rt template).
  - apply has_true. rewrite Hp. eauto.
  - unfold get. by rewrite Hp.
Qed.

Lemma spawn_is_placed_at_tap_witness :
  500 < 1000 - lastOf sampleController sampleRuntime /\
  truthy (entityToSpawn (schemaAttribute_get sampleRuntime sampleController))
    = Some sampleTemplate /\
  get Position sampleWorld sampleTemplate = vec3 1 2 3 /\
  let rt' := touchStart sampleController 1000 (draw 1 1) sampleTouch sampleRuntime in
  nextEntity (world rt') = 11%N /\
  has Position (world rt') 10%N = true /\
  get Position (world rt') 10%N = vec3 5 0 (-2).
Proof.
  assert (Hgt : 500 < 1000 - lastOf sampleController sampleRuntime)
    by (vm_compute; reflexivity).
  assert (Ht : truthy (entityToSpawn (schemaAttribute_get sampleRuntime sampleController))
               = Some sampleTemplate) by (vm_compute; reflexivity).
  split; [exact Hgt|]. split; [exact Ht|]. split; [vm_compute; reflexivity|].
  exact (spawn_is_placed_at_tap sampleController 1000 (draw 1 1) sampleTouch
           sampleRuntime sampleTemplate Hgt Ht).
Defined.

(** C6.  On an accepted spawn with a configured template, the scale
    animation of the new entity is the record written at lines 201-212,
    whatever scale animation the template carries: from 0 on the three
    axes to the computed scale on the three axes, duration 400, not
    looping, ease-out, quadratic. *)
Theorem spawn_grows_in
    (eid : Eid) (now : Z) (random : double) (e : TouchEvent) (rt : Runtime)
    (template : Eid) :
  500 < now - lastOf eid rt ->
  truthy (entityToSpawn (schemaAttribute_get rt eid)) = Some template ->
  let rt' := touchStart eid now random e rt in
  let cfg := schemaAttribute_get rt eid in
  let scale := randomScaleOf random (minScale cfg) (maxScale cfg) in
  let anim := get ScaleAnimation (world rt') (nextEntity (world rt)) in
  has ScaleAnimation (world rt') (nextEntity (world rt)) = true /\
  anim = scaleAnimationProps scale /\
  anim !! "fromX" = Some (VNum 0) /\
  anim !! "fromY" = Some (VNum 0) /\
  anim !! "fromZ" = Some (VNum 0) /\
  anim !! "toX" = Some (VNum scale) /\
  anim !! "toY" = Some (VNum scale) /\
  anim !! "toZ" = Some (VNum scale) /\
  anim !! "duration" = Some (VNum 400) /\
  anim !! "loop" = Some (VBool false) /\
  anim !! "easeOut" = Some (VBool true) /\
  anim !! "easingFunction" = Some (VStr "Quadratic").
Proof.
  intros Hgt Ht rt' cfg scale anim.
  pose proof (touchStart_spawn_ScaleAnimation eid now random e rt template Hgt Ht) as Hp.
  assert (Ha : anim = scaleAnimationProps scale).
  { subst anim. unfold get. fold rt' in Hp. by rewrite Hp. }
  split.
  { apply has_true. fold rt' in Hp. rewrite Hp. eauto. }
  split; [exact Ha|].
  rewrite Ha. apply scaleAnimationProps_fields.
Qed.

Lemma spawn_grows_in_witness :
  500 < 1000 - lastOf sampleController sampleRuntime /\
  truthy (entityToSpawn (schemaAttribute_get sampleRuntime sampleController))
    = Some sampleTemplate /\
  get ScaleAnimation sampleWorld sampleTemplate !! "loop" = Some (VBool true) /\
  let rt' := touchStart sampleController 1000 (draw 1 1) sampleTouch sampleRuntime in
  let anim := get ScaleAnimation (world rt') 10%N in
  anim !! "fromX" = Some (VNum 0) /\
  anim !! "toX" = Some (VNum (randomScaleOf (draw 1 1) 1 3)) /\
  anim !! "duration" = Some (VNum 400) /\
  anim !! "loop" = Some (VBool false) /\
  anim !! "easeOut" = Some (VBool true) /\
  anim !! "easingFunction" = Some (VStr "Quadratic").
Proof.
  assert (Hgt : 500 < 1000 - lastOf sampleController sampleRuntime)
    by (vm_compute; reflexivity).
  assert (Ht : truthy (entityToSpawn (schemaAttribute_get sampleRuntime sampleController))
               = Some sampleTemplate) by (vm_compute; reflexivity).
  split; [exact Hgt|]. split; [exact Ht|]. split; [vm_compute; reflexivity|].
  destruct (spawn_grows_in sampleController 1000 (draw 1 1) sampleTouch
              sampleRuntime sampleTemplate Hgt Ht)
    as (_ & _ & HfX & _ & _ & HtX & _ & _ & Hd & Hl & Heo & Hef).
  intros rt' anim.
  split; [exact HfX|]. split; [exact HtX|]. split; [exact Hd|].
  split; [exact Hl|]. split; [exact Heo|]. exact Hef.
Defined.

(** ** Binary64 rounding

    What [SFadd], [SFsub] and [SFmul] compute, in terms of the values
    of their arguments. *)

(** *** Counting digits *)
Lemma digits2_pos_size (m : positive) : digits2_pos m = Pos.size m.
Proof. induction m; simpl; congruence. Qed.

Lemma digits2_pos_bounds (m : positive) :
  2 ^ (Zpos (digits2_pos m) - 1) <= Zpos m < 2 ^ Zpos (digits2_pos m).
Proof.
  rewrite digits2_pos_size.
  assert (H : Zpos (Pos.size m) = Z.log2 (Zpos m) + 1).
  { destruct m; simpl; try lia. }
  rewrite H. replace (Z.log2 (Z.pos m) + 1 - 1) with (Z.log2 (Z.pos m)) by lia.
  pose proof (Z.log2_spec (Zpos m) ltac:(lia)) as Hs.
  replace (Z.log2 (Z.pos m) + 1) with (Z.succ (Z.log2 (Z.pos m))) by lia. exact Hs.
Qed.

Lemma fexp_eq (e : Z) : fexp 53 1024 e = Z.max (e - 53) (-1074).
Proof. reflexivity. Qed.

(** *** Shifting right *)

Lemma iter_nat_add {A} (f : A -> A) (n k : nat) (x : A) :
  iter_nat f (n + k) x = iter_nat f n (iter_nat f k x).
Proof. induction n; simpl; congruence. Qed.

Lemma iter_nat_succ_r {A} (f : A -> A) (n : nat) (x : A) :
  iter_nat f n (f x) = f (iter_nat f n x).
Proof. induction n; simpl; congruence. Qed.

Lemma iter_pos_nat {A} (f : A -> A) (p : positive) (x : A) :
  SpecFloat.iter_pos f p x = iter_nat f (Pos.to_nat p) x.
Proof.
  revert x. induction p as [p IH|p IH|]; intros x; cbn [SpecFloat.iter_pos].
  - rewrite !IH. rewrite Pos2Nat.inj_xI.
    replace (S (2 * Pos.to_nat p)) with (Pos.to_nat p + S (Pos.to_nat p))%nat by lia.
    rewrite iter_nat_add. simpl. by rewrite iter_nat_succ_r.
  - rewrite !IH. rewrite Pos2Nat.inj_xO.
    replace (2 * Pos.to_nat p)%nat with (Pos.to_nat p + Pos.to_nat p)%nat by lia.
    by rewrite iter_nat_add.
  - reflexivity.
Qed.

Lemma shr_1_spec (m : Z) (r s : bool) :
  0 <= m ->
  shr_1 (Build_shr_record m r s) = Build_shr_record (m / 2) (Z.odd m) (r || s).
Proof.
  intros Hm. destruct m as [|p|p]; [reflexivity| |lia].
  destruct p as [p|p|]; simpl shr_1.
  - f_equal. rewrite Pos2Z.inj_xI. apply (Z.div_unique _ 2 _ 1); lia.
  - f_equal. rewrite Pos2Z.inj_xO. apply (Z.div_unique _ 2 _ 0); lia.
  - reflexivity.
Qed.

Lemma shr_inv_0 (M : Z) : 0 <= M -> shr_inv M 0 (Build_shr_record M false false).
Proof.
  intros HM. split; [exact HM|]. exists 0. simpl. repeat split; try lia; try discriminate.
Qed.

Lemma shr_inv_step (M n : Z) (mrs : shr_record) :
  0 <= n -> shr_inv M n mrs -> shr_inv M (n + 1) (shr_1 mrs).
Proof.
  intros Hn (Hm & R & HM & HR & Hr & Hs).
  destruct mrs as [m r s]. cbn [shr_m shr_r shr_s] in *.
  rewrite shr_1_spec by exact Hm. unfold shr_inv. cbn [shr_m shr_r shr_s].
  assert (Hpow : 2 ^ (n + 1) = 2 * 2 ^ n) by (rewrite Z.pow_add_r by lia; lia).
  assert (Hp : 0 < 2 ^ n) by (apply Z.pow_pos_nonneg; lia).
  pose proof (Z.div_mod m 2 ltac:(lia)) as Hdm.
  pose proof (Z.mod_pos_bound m 2 ltac:(lia)) as Hb.
  assert (Hodd : Z.odd m = true <-> m mod 2 = 1).
  { rewrite Zmod_odd. destruct (Z.odd m); split; intros; try lia; try reflexivity; discriminate. }
  split; [apply Z.div_pos; lia|].
  exists ((m mod 2) * 2 ^ n + R).
  rewrite Hpow.
  assert (Hrs : (r || s) = true <-> R <> 0).
  { rewrite orb_true_iff. split.
    - intros [H|H]; [apply Hr in H; lia|apply Hs in H; lia].
    - intros HR0. destruct (Z_lt_le_dec (2 * R) (2 ^ n)) as [Hlt|Hge].
      + right. apply Hs. lia.
      + left. apply Hr. lia. }
  set (q := m / 2) in *. set (b := m mod 2) in *.
  assert (Hb' : b = 0 \/ b = 1) by lia.
  split; [rewrite HM, Hdm; ring|].
  split; [destruct Hb' as [-> | ->]; lia|]. split.
  - rewrite Hodd. destruct Hb' as [-> | ->]; lia.
  - rewrite Hrs. destruct Hb' as [-> | ->]; lia.
Qed.

Lemma shr_inv_iter (M : Z) (n : nat) :
  0 <= M -> shr_inv M (Z.of_nat n) (iter_nat shr_1 n (Build_shr_record M false false)).
Proof.
  intros HM. induction n as [|n IH].
  - apply shr_inv_0. exact HM.
  - rewrite Nat2Z.inj_succ. simpl iter_nat. unfold Z.succ.
    apply shr_inv_step; [lia|exact IH].
Qed.

(** Shifting [M] right by [n] bits leaves the quotient and the
    position of the remainder. *)
Lemma shr_spec (M e n : Z) :
  0 <= M -> 0 < n ->
  exists mrs, shr (Build_shr_record M false false) e n = (mrs, e + n) /\ shr_inv M n mrs.
Proof.
  intros HM Hn. destruct n as [|p|p]; try lia.
  unfold shr. eexists; split; [reflexivity|].
  rewrite iter_pos_nat. rewrite <- (positive_nat_Z p) at 1.
  apply shr_inv_iter. exact HM.
Qed.

(** *** Rounding a mantissa *)

Lemma shr_nonpos mrs e n : n <= 0 -> shr mrs e n = (mrs, e).
Proof. intros H. destruct n; try reflexivity. lia. Qed.

Lemma rne_of_inv (M n : Z) (mrs : shr_record) :
  0 < n -> shr_inv M n mrs ->
  round_nearest_even (shr_m mrs) (loc_of_shr_record mrs)
  = rne (shr_m mrs) (M - shr_m mrs * 2 ^ n) n.
Proof.
  intros Hn (Hm & R & HM & HR & Hr & Hs).
  replace (M - shr_m mrs * 2 ^ n) with R by lia.
  destruct mrs as [q r s]. cbn [shr_m shr_r shr_s] in *.
  unfold rne.
  destruct r, s; cbn [loc_of_shr_record round_nearest_even].
  - (* Gt *) assert (2 ^ n <= 2 * R) by (by apply Hr).
    assert (R <> 0 /\ 2 * R <> 2 ^ n) as [? ?] by (by apply Hs).
    destruct (Z.eqb_spec R 0); [lia|]. destruct (Z.ltb_spec (2 * R) (2 ^ n)); [lia|].
    destruct (Z.eqb_spec (2 * R) (2 ^ n)); [lia|]. reflexivity.
  - (* Eq *) assert (2 ^ n <= 2 * R) by (by apply Hr).
    assert (Hn1 : ~ (R <> 0 /\ 2 * R <> 2 ^ n)) by (intros H'; apply Hs in H'; discriminate).
    assert (0 < 2 ^ n) by (apply Z.pow_pos_nonneg; lia).
    destruct (Z.eqb_spec R 0); [lia|]. destruct (Z.ltb_spec (2 * R) (2 ^ n)); [lia|].
    destruct (Z.eqb_spec (2 * R) (2 ^ n)); [reflexivity|]. exfalso. apply Hn1. lia.
  - (* Lt *) assert (Hn1 : ~ (2 ^ n <= 2 * R)) by (intros H'; apply Hr in H'; discriminate).
    assert (R <> 0 /\ 2 * R <> 2 ^ n) as [? ?] by (by apply Hs).
    destruct (Z.eqb_spec R 0); [lia|]. destruct (Z.ltb_spec (2 * R) (2 ^ n)); [reflexivity|lia].
  - (* Exact *) assert (Hn1 : ~ (2 ^ n <= 2 * R)) by (intros H'; apply Hr in H'; discriminate).
    assert (Hn2 : ~ (R <> 0 /\ 2 * R <> 2 ^ n)) by (intros H'; apply Hs in H'; discriminate).
    destruct (Z.eqb_spec R 0); [reflexivity|]. exfalso. apply Hn2. lia.
Qed.

Lemma Zdigits2_bounds (m2 : Z) :
  0 < m2 -> 2 ^ (Zdigits2 m2 - 1) <= m2 < 2 ^ Zdigits2 m2.
Proof.
  intros H. destruct m2 as [|p|p]; try lia. apply digits2_pos_bounds.
Qed.

Lemma Zdigits2_le (m2 k : Z) : 0 < m2 -> 0 <= k -> m2 < 2 ^ k -> Zdigits2 m2 <= k.
Proof.
  intros H Hk Hlt. pose proof (Zdigits2_bounds m2 H) as [Hlo _].
  destruct (Z_le_gt_dec (Zdigits2 m2) k) as [|Hgt]; [lia|]. exfalso.
  assert (2 ^ k <= 2 ^ (Zdigits2 m2 - 1)) by (apply Z.pow_le_mono_r; lia). lia.
Qed.

Lemma Zdigits2_ge (m2 k : Z) : 0 < m2 -> 2 ^ k <= m2 -> k + 1 <= Zdigits2 m2.
Proof.
  intros H Hge. pose proof (Zdigits2_bounds m2 H) as [_ Hhi].
  destruct (Z_le_gt_dec (k + 1) (Zdigits2 m2)) as [|Hgt]; [lia|]. exfalso.
  assert (0 <= Zdigits2 m2) by (destruct m2; simpl; lia).
  assert (2 ^ Zdigits2 m2 <= 2 ^ k) by (apply Z.pow_le_mono_r; lia). lia.
Qed.

(** The second shift: the rounded mantissa is normalised again. *)
Lemma round_aux_finish (sx : bool) (m2 e' : Z) :
  0 <= m2 <= 2 ^ 53 -> -1074 <= e' ->
  (let '(mrs'', e'') := shr_fexp 53 1024 m2 e' loc_Exact in
   match shr_m mrs'' with
   | Z0 => S754_zero sx
   | Zpos m => if e'' <=? 1024 - 53 then S754_finite sx m e'' else S754_infinity sx
   | Zneg _ => S754_nan
   end) = pack sx m2 e'.
Proof.
  intros Hm He. unfold shr_fexp. cbn [shr_record_of_loc].
  destruct (Z.eq_dec m2 0) as [->|Hnz].
  { rewrite shr_nonpos; [reflexivity|]. simpl Zdigits2. rewrite fexp_eq. lia. }
  assert (Hpos : 0 < m2) by lia.
  destruct (Z.eq_dec m2 (2 ^ 53)) as [->|Hne].
  { vm_compute Zdigits2. rewrite fexp_eq.
    replace (Z.max (54 + e' - 53) (-1074) - e') with 1 by lia.
    reflexivity. }
  assert (Hd : Zdigits2 m2 <= 53) by (apply Zdigits2_le; lia).
  rewrite shr_nonpos by (rewrite fexp_eq; lia).
  cbn [shr_m]. unfold pack. destruct m2 as [|p|p]; try lia.
  destruct (Z.ltb_spec (Z.pos p) (2 ^ 53)); [reflexivity|lia].
Qed.

Lemma rne_bounds (q R n : Z) : q <= rne q R n <= q + 1.
Proof.
  unfold rne. destruct (R =? 0); [lia|]. destruct (2 * R <? 2 ^ n); [lia|].
  destruct (2 * R =? 2 ^ n); [destruct (Z.even q); lia|lia].
Qed.

(** [binary_round_aux] on an exact mantissa: the mantissa is shifted
    to the exponent of its binade and rounded to nearest, ties to
    even. *)
Lemma round_aux_spec (sx : bool) (m : positive) (e : Z) :
  let n := fexp 53 1024 (Zpos (digits2_pos m) + e) - e in
  binary_round_aux 53 1024 sx (Zpos m) e loc_Exact =
    if n <=? 0 then pack sx (Zpos m) e
    else pack sx (rne (Zpos m / 2 ^ n) (Zpos m mod 2 ^ n) n) (e + n).
Proof.
  intros n. pose proof (digits2_pos_bounds m) as [Hlo Hhi].
  assert (Hn : n = Z.max (Zpos (digits2_pos m) + e - 53) (-1074) - e) by reflexivity.
  unfold binary_round_aux. unfold shr_fexp at 1. cbn [Zdigits2 shr_record_of_loc].
  fold n. destruct (Z.leb_spec n 0) as [Hle|Hgt].
  - rewrite shr_nonpos by exact Hle.
    cbn [shr_m loc_of_shr_record round_nearest_even].
    apply round_aux_finish; [|lia].
    split; [lia|].
    assert (2 ^ Zpos (digits2_pos m) <= 2 ^ 53) by (apply Z.pow_le_mono_r; lia). lia.
  - destruct (shr_spec (Zpos m) e n ltac:(lia) Hgt) as (mrs & Hshr & Hinv).
    rewrite Hshr. rewrite (rne_of_inv (Zpos m) n mrs Hgt Hinv).
    destruct Hinv as (Hq & R & HM & HR & _).
    assert (Hp : 0 < 2 ^ n) by (apply Z.pow_pos_nonneg; lia).
    assert (Hdiv : Zpos m / 2 ^ n = shr_m mrs).
    { symmetry. apply (Z.div_unique _ _ _ R); lia. }
    assert (Hmod : Zpos m mod 2 ^ n = Zpos m - shr_m mrs * 2 ^ n).
    { symmetry. replace (Zpos m - shr_m mrs * 2 ^ n) with R by lia.
      apply (Z.mod_unique _ _ (shr_m mrs)); lia. }
    rewrite Hdiv, Hmod.
    apply round_aux_finish; [|lia].
    pose proof (rne_bounds (shr_m mrs) (Zpos m - shr_m mrs * 2 ^ n) n).
    split; [lia|].
    assert (shr_m mrs < 2 ^ 53); [|lia].
    assert (Hdn : Zpos (digits2_pos m) <= 53 + n) by lia.
    assert (2 ^ Zpos (digits2_pos m) <= 2 ^ (53 + n)) by (apply Z.pow_le_mono_r; lia).
    rewrite Z.pow_add_r in * by lia. nia.
Qed.

(** *** Values and comparisons *)

Lemma p2_pos e : -2148 <= e -> 0 < p2 e.
Proof. intros. unfold p2. apply Z.pow_pos_nonneg; lia. Qed.

Lemma p2_add e k : -2148 <= e -> 0 <= k -> p2 (e + k) = p2 e * 2 ^ k.
Proof. intros. unfold p2. rewrite <- Z.pow_add_r by lia. f_equal. lia. Qed.

Lemma p2_le e1 e2 : -2148 <= e1 -> e1 <= e2 -> p2 e1 <= p2 e2.
Proof. intros. unfold p2. apply Z.pow_le_mono_r; lia. Qed.

Lemma valid_canon (s : bool) (m : positive) (e : Z) :
  valid_binary 53 1024 (S754_finite s m e) = true <-> canon (Zpos m) e.
Proof.
  unfold valid_binary, bounded, canonical_mantissa, canon.
  rewrite andb_true_iff, Z.eqb_eq, Z.leb_le, fexp_eq.
  pose proof (digits2_pos_bounds m) as [Hlo Hhi].
  assert (Hd : 0 < Zpos (digits2_pos m)) by lia.
  split.
  - intros [Hc He].
    assert (Zpos (digits2_pos m) <= 53) by lia.
    assert (2 ^ Zpos (digits2_pos m) <= 2 ^ 53) by (apply Z.pow_le_mono_r; lia).
    split; [lia|]. split; [lia|].
    destruct (Z.eq_dec e (-1074)) as [|Hne]; [by left|right].
    assert (Zpos (digits2_pos m) = 53) by lia.
    replace 52 with (Zpos (digits2_pos m) - 1) by lia. exact Hlo.
  - intros (Hm & He & Hc).
    assert (Zpos (digits2_pos m) <= 53) by (apply (Zdigits2_le (Zpos m)); lia).
    split; [|lia].
    destruct Hc as [->|Hc]; [lia|].
    assert (53 <= Zpos (digits2_pos m)) by (apply (Zdigits2_ge (Zpos m) 52); lia).
    lia.
Qed.

(** Canonical pairs compare as their values do. *)
Lemma canon_lt_exp (m1 e1 m2 e2 : Z) :
  canon m1 e1 -> canon m2 e2 -> e1 < e2 -> m1 * p2 e1 < m2 * p2 e2.
Proof.
  intros (Hm1 & He1 & Hc1) (Hm2 & He2 & Hc2) Hlt.
  assert (H52 : 2 ^ 52 <= m2) by (destruct Hc2; lia).
  assert (Hp : p2 e2 = p2 e1 * 2 ^ (e2 - e1)).
  { rewrite <- p2_add by lia. f_equal. lia. }
  assert (Hp1 : 0 < p2 e1) by (apply p2_pos; lia).
  assert (H2 : 2 <= 2 ^ (e2 - e1)).
  { change 2 with (2 ^ 1) at 1. apply Z.pow_le_mono_r; lia. }
  rewrite Hp.
  assert (m1 < m2 * 2 ^ (e2 - e1)) by nia.
  nia.
Qed.

Lemma compare_canon (m1 m2 : positive) (e1 e2 : Z) :
  canon (Zpos m1) e1 -> canon (Zpos m2) e2 ->
  match Z.compare e1 e2 with
  | Lt => Lt
  | Gt => Gt
  | Eq => Pos.compare_cont Eq m1 m2
  end = Z.compare (Zpos m1 * p2 e1) (Zpos m2 * p2 e2).
Proof.
  intros H1 H2. symmetry.
  destruct (Z.compare_spec e1 e2) as [->|Hlt|Hgt].
  - change (Pos.compare_cont Eq m1 m2) with (Pos.compare m1 m2).
    assert (Hp : 0 < p2 e2) by (apply p2_pos; destruct H2 as (_ & ? & _); lia).
    destruct (Pos.compare_spec m1 m2) as [->|Hlt|Hgt].
    + apply Z.compare_refl.
    + apply Z.compare_lt_iff. apply Zmult_lt_compat_r; lia.
    + apply Z.compare_gt_iff. apply Zmult_lt_compat_r; lia.
  - apply Z.compare_lt_iff. by apply canon_lt_exp.
  - apply Z.compare_gt_iff. by apply canon_lt_exp.
Qed.

(** Finite numbers compare as their values do. *)
Lemma SFcompare_val (a b : double) :
  valid a -> valid b -> SFcompare a b = Some (Z.compare (val a) (val b)).
Proof.
  intros [Va Fa] [Vb Fb].
  destruct a as [sa|sa| |sa ma ea]; try discriminate;
  destruct b as [sb|sb| |sb mb eb]; try discriminate.
  - reflexivity.
  - apply valid_canon in Vb. destruct Vb as ((? & ?) & (? & ?) & _).
    pose proof (p2_pos eb ltac:(lia)).
    unfold SFcompare, val. destruct sb; simpl cond_Zopp; f_equal; symmetry.
    + apply Z.compare_gt_iff. nia.
    + apply Z.compare_lt_iff. nia.
  - apply valid_canon in Va. destruct Va as ((? & ?) & (? & ?) & _).
    pose proof (p2_pos ea ltac:(lia)).
    unfold SFcompare, val. destruct sa; simpl cond_Zopp; f_equal; symmetry.
    + apply Z.compare_lt_iff. nia.
    + apply Z.compare_gt_iff. nia.
  - apply valid_canon in Va, Vb.
    pose proof (compare_canon ma mb ea eb Va Vb) as Hc.
    pose proof (compare_canon mb ma eb ea Vb Va) as Hc'.
    destruct Va as ((? & ?) & (? & ?) & _), Vb as ((? & ?) & (? & ?) & _).
    pose proof (p2_pos ea ltac:(lia)). pose proof (p2_pos eb ltac:(lia)).
    unfold SFcompare, val. destruct sa, sb; simpl cond_Zopp; f_equal.
    + rewrite Z.compare_opp, <- Hc'. rewrite (Z.compare_antisym ea eb).
      destruct (ea ?= eb); simpl; try reflexivity.
      change (Pos.compare_cont Eq ma mb) with (Pos.compare ma mb).
      change (Pos.compare_cont Eq mb ma) with (Pos.compare mb ma).
      by rewrite (Pos.compare_antisym ma mb).
    + symmetry. apply Z.compare_lt_iff. nia.
    + symmetry. apply Z.compare_gt_iff. nia.
    + exact Hc.
Qed.

Lemma fle_val (a b : double) : valid a -> valid b -> (fle a b <-> val a <= val b).
Proof.
  intros Ha Hb. unfold fle, SFleb. rewrite (SFcompare_val a b Ha Hb).
  destruct (Z.compare_spec (val a) (val b)); split; intros; try lia; try reflexivity;
    discriminate.
Qed.

Lemma flt_val (a b : double) : valid a -> valid b -> (flt a b <-> val a < val b).
Proof.
  intros Ha Hb. unfold flt, SFltb. rewrite (SFcompare_val a b Ha Hb).
  destruct (Z.compare_spec (val a) (val b)); split; intros; try lia; try reflexivity;
    discriminate.
Qed.

(** *** The rounded mantissa and exponent *)

Lemma Zdigits2_nonneg (M : Z) : 0 <= Zdigits2 M.
Proof. destruct M; simpl; lia. Qed.

(** The rounded mantissa: the exact one when the value fits, else the
    quotient or its successor, the quotient when the value is exact or
    below the midpoint. *)
Lemma rnd_m_spec (M e : Z) :
  0 < M -> -2148 <= e ->
  let t := rnd_e M e in
  let m2 := rnd_m M e in
  -1074 <= t /\ 0 <= m2 <= 2 ^ 53 /\ (t = -1074 \/ 2 ^ 52 <= m2) /\
  ((t <= e /\ m2 * p2 t = M * p2 e) \/
   (e < t /\ exists q,
      (m2 = q \/ m2 = q + 1) /\
      q * p2 t <= M * p2 e < (q + 1) * p2 t /\
      (M * p2 e = q * p2 t -> m2 = q) /\
      (2 * (M * p2 e - q * p2 t) < p2 t -> m2 = q) /\
      (t = -1074 \/ 2 ^ 52 <= q))).
Proof.
  intros HM He t m2.
  pose proof (Zdigits2_bounds M HM) as [Hlo Hhi].
  pose proof (Zdigits2_nonneg M) as HD.
  set (D := Zdigits2 M) in *.
  assert (Ht : t = Z.max (D + e - 53) (-1074)) by reflexivity.
  assert (Ht1 : -1074 <= t) by lia.
  split; [exact Ht1|].
  unfold m2, rnd_m. fold t.
  destruct (Z.leb_spec t e) as [Hle|Hgt].
  - (* exact *)
    assert (Hpe : p2 e = p2 t * 2 ^ (e - t)).
    { rewrite <- p2_add by lia. f_equal. lia. }
    assert (Hp : 0 < 2 ^ (e - t)) by (apply Z.pow_pos_nonneg; lia).
    assert (Hup : M * 2 ^ (e - t) < 2 ^ 53).
    { assert (2 ^ D * 2 ^ (e - t) <= 2 ^ 53).
      { rewrite <- Z.pow_add_r by lia. apply Z.pow_le_mono_r; lia. }
      nia. }
    split; [nia|]. split.
    + destruct (Z.eq_dec t (-1074)) as [|Hne]; [by left|right].
      assert (HtD : t = D + e - 53) by lia.
      assert (1 <= D) by (destruct (Z_le_gt_dec 1 D); [lia|]; assert (D = 0) by lia;
                           subst D; rewrite H in Hhi; simpl in Hhi; lia).
      assert (2 ^ 52 = 2 ^ (D - 1) * 2 ^ (e - t)).
      { rewrite <- Z.pow_add_r by lia. f_equal. lia. }
      nia.
    + left. split; [exact Hle|]. rewrite Hpe. ring.
  - (* inexact grid *)
    set (n := t - e) in *.
    assert (Hn : 0 < n) by lia.
    assert (Hp : 0 < 2 ^ n) by (apply Z.pow_pos_nonneg; lia).
    pose proof (Z.div_mod M (2 ^ n) ltac:(lia)) as Hdm.
    pose proof (Z.mod_pos_bound M (2 ^ n) Hp) as HR.
    set (q := M / 2 ^ n) in *. set (R := M mod 2 ^ n) in *.
    assert (Hq0 : 0 <= q) by (apply Z.div_pos; lia).
    assert (Hpt : p2 t = p2 e * 2 ^ n).
    { rewrite <- p2_add by lia. f_equal. lia. }
    assert (Hpe : 0 < p2 e) by (apply p2_pos; lia).
    assert (Hq53 : q < 2 ^ 53).
    { assert (2 ^ D <= 2 ^ 53 * 2 ^ n).
      { rewrite <- Z.pow_add_r by lia. apply Z.pow_le_mono_r; lia. }
      nia. }
    pose proof (rne_bounds q R n) as Hrb.
    assert (Hq52 : t = -1074 \/ 2 ^ 52 <= q).
    { destruct (Z.eq_dec t (-1074)) as [|Hne]; [by left|right].
      assert (HnD : n = D - 53) by lia.
      assert (2 ^ (D - 1) = 2 ^ 52 * 2 ^ n).
      { rewrite <- Z.pow_add_r by lia. f_equal. lia. }
      nia. }
    split; [lia|]. split; [destruct Hq52; [by left|right; lia]|].
    right. split; [lia|]. exists q.
    assert (Hcases : rne q R n = q \/ rne q R n = q + 1).
    { unfold rne. destruct (R =? 0); [by left|]. destruct (2 * R <? 2 ^ n); [by left|].
      destruct (2 * R =? 2 ^ n); [destruct (Z.even q); [by left|by right]|by right]. }
    split; [exact Hcases|].
    split; [split; nia|].
    split; [|split; [|exact Hq52]].
    + intros Hex. assert (R = 0) by nia. unfold rne.
      destruct (Z.eqb_spec R 0); [reflexivity|lia].
    + intros Hnear. assert (2 * R < 2 ^ n) by nia. unfold rne.
      destruct (Z.eqb_spec R 0); [reflexivity|].
      destruct (Z.ltb_spec (2 * R) (2 ^ n)); [reflexivity|lia].
Qed.

(** *** The packed result *)
Lemma pack_finite (s : bool) (m2 t : Z) :
  0 <= m2 <= 2 ^ 53 ->
  finite (pack s m2 t) = true <->
  (m2 = 0 \/ (m2 < 2 ^ 53 /\ t <= 971) \/ (m2 = 2 ^ 53 /\ t + 1 <= 971)).
Proof.
  intros Hm. unfold pack. destruct m2 as [|p|p]; [| |lia].
  - split; [by left|reflexivity].
  - destruct (Z.ltb_spec (Zpos p) (2 ^ 53)).
    + destruct (Z.leb_spec t 971); split; try reflexivity; try lia; try discriminate.
    + destruct (Z.leb_spec (t + 1) 971); split; try reflexivity; try lia; try discriminate.
Qed.

Lemma pack_val (s : bool) (m2 t : Z) :
  0 <= m2 <= 2 ^ 53 -> -2148 <= t ->
  finite (pack s m2 t) = true ->
  val (pack s m2 t) = cond_Zopp s (m2 * p2 t).
Proof.
  intros Hm Ht. unfold pack. destruct m2 as [|p|p]; [| |lia].
  - intros _. simpl. by destruct s.
  - destruct (Z.ltb_spec (Zpos p) (2 ^ 53)).
    + destruct (Z.leb_spec t 971); [|discriminate]. reflexivity.
    + destruct (Z.leb_spec (t + 1) 971); [|discriminate]. intros _.
      assert (Hp : Zpos p = 2 ^ 53) by lia. rewrite Hp. unfold val.
      rewrite p2_add by lia. f_equal. rewrite Z2Pos.id by lia.
      change (2 ^ 53) with (2 ^ 52 * 2 ^ 1). ring.
Qed.

Lemma pack_valid (s : bool) (m2 t : Z) :
  0 <= m2 <= 2 ^ 53 -> -1074 <= t -> (t = -1074 \/ 2 ^ 52 <= m2) ->
  valid_binary 53 1024 (pack s m2 t) = true.
Proof.
  intros Hm Ht Hc. unfold pack. destruct m2 as [|p|p]; [reflexivity| |lia].
  destruct (Z.ltb_spec (Zpos p) (2 ^ 53)).
  - destruct (Z.leb_spec t 971); [|reflexivity].
    apply valid_canon. unfold canon. lia.
  - destruct (Z.leb_spec (t + 1) 971); [|reflexivity].
    apply valid_canon. unfold canon. rewrite Z2Pos.id by lia.
    change (2 ^ 52 < 2 ^ 53) with (4503599627370496 < 9007199254740992). lia.
Qed.

(** *** Rounding does not cross a number *)
Lemma rnd_e_le (M e my ey : Z) :
  0 < M -> -2148 <= e -> canon my ey ->
  M * p2 e <= my * p2 ey -> rnd_e M e <= ey.
Proof.
  intros HM He (Hmy & Hey & Hcy) Hle.
  pose proof (Zdigits2_bounds M HM) as [Hlo Hhi].
  pose proof (Zdigits2_nonneg M) as HD.
  unfold rnd_e. rewrite fexp_eq. set (D := Zdigits2 M) in *.
  destruct (Z_le_gt_dec (Z.max (D + e - 53) (-1074)) ey) as [|Hgt]; [lia|]. exfalso.
  assert (1 <= D).
  { destruct (Z_le_gt_dec 1 D); [lia|]. assert (HD0 : D = 0) by lia.
    rewrite HD0 in Hhi. simpl in Hhi. lia. }
  assert (Hpe : 0 < p2 e) by (apply p2_pos; lia).
  assert (Hpey : 0 < p2 ey) by (apply p2_pos; lia).
  assert (H1 : p2 (ey + 53) = p2 ey * 2 ^ 53) by (apply p2_add; lia).
  assert (H2 : p2 (ey + 53) <= p2 (D + e - 1)) by (apply p2_le; lia).
  assert (H3 : p2 (D + e - 1) = p2 e * 2 ^ (D - 1)).
  { rewrite <- p2_add by lia. f_equal. lia. }
  nia.
Qed.

(** A value at most a canonical number is rounded to at most that
    number, and does not overflow. *)
Lemma rnd_upper (M e my ey : Z) :
  0 < M -> -2148 <= e -> canon my ey ->
  M * p2 e <= my * p2 ey ->
  rnd_m M e * p2 (rnd_e M e) <= my * p2 ey /\
  forall s, finite (pack s (rnd_m M e) (rnd_e M e)) = true.
Proof.
  intros HM He Hy Hle.
  pose proof (rnd_e_le M e my ey HM He Hy Hle) as Hte.
  destruct Hy as (Hmy & Hey & Hcy).
  destruct (rnd_m_spec M e HM He) as (Ht & Hm2 & Hc & Hcase).
  set (t := rnd_e M e) in *. set (m2 := rnd_m M e) in *.
  assert (Hpt : 0 < p2 t) by (apply p2_pos; lia).
  assert (Hpy : p2 ey = p2 t * 2 ^ (ey - t)).
  { rewrite <- p2_add by lia. f_equal. lia. }
  assert (Hpk : 0 < 2 ^ (ey - t)) by (apply Z.pow_pos_nonneg; lia).
  assert (Hval : m2 * p2 t <= my * p2 ey).
  { destruct Hcase as [[_ Hex]|(_ & q & Hq & Hbr & Hexact & _)]; [lia|].
    destruct Hq as [Hq|Hq]; [rewrite Hq; lia|].
    assert (Hne : M * p2 e <> q * p2 t) by (intros Habs; apply Hexact in Habs; lia).
    rewrite Hq. rewrite Hpy in *. 
    assert (q < my * 2 ^ (ey - t)) by nia. nia. }
  split; [exact Hval|]. intros s. apply pack_finite; [exact Hm2|].
  destruct (Z.eq_dec m2 0) as [|Hnz]; [by left|right].
  destruct (Z.eq_dec m2 (2 ^ 53)) as [Heq|Hne].
  - right. split; [exact Heq|].
    assert (t < ey); [|lia].
    destruct (Z_lt_le_dec t ey) as [|Hge]; [lia|]. exfalso.
    assert (ey = t) by lia. subst ey. rewrite Heq in Hval. nia.
  - left. lia.
Qed.

(** A value at least a canonical number is rounded to at least that
    number. *)
Lemma rnd_lower (M e my ey : Z) :
  0 < M -> -2148 <= e -> canon my ey ->
  my * p2 ey <= M * p2 e ->
  my * p2 ey <= rnd_m M e * p2 (rnd_e M e).
Proof.
  intros HM He (Hmy & Hey & Hcy) Hle.
  destruct (rnd_m_spec M e HM He) as (Ht & Hm2 & Hc & Hcase).
  set (t := rnd_e M e) in *. set (m2 := rnd_m M e) in *.
  assert (Hpt : 0 < p2 t) by (apply p2_pos; lia).
  assert (Hpey : 0 < p2 ey) by (apply p2_pos; lia).
  destruct Hcase as [[_ Hex]|(Het & q & Hq & Hbr & _ & _ & Hq52)]; [lia|].
  assert (Hqm : q <= m2) by lia.
  destruct (Z_le_gt_dec t ey) as [Hge|Hlt].
  - assert (Hpy : p2 ey = p2 t * 2 ^ (ey - t)).
    { rewrite <- p2_add by lia. f_equal. lia. }
    assert (Hpk : 0 < 2 ^ (ey - t)) by (apply Z.pow_pos_nonneg; lia).
    rewrite Hpy in *. assert (my * 2 ^ (ey - t) <= q) by nia. nia.
  - assert (H52 : 2 ^ 52 <= q) by (destruct Hq52; lia).
    assert (H1 : p2 (ey + 53) = p2 ey * 2 ^ 53) by (apply p2_add; lia).
    assert (H2 : p2 (ey + 53) <= p2 (t + 52)) by (apply p2_le; lia).
    assert (H3 : p2 (t + 52) = p2 t * 2 ^ 52) by (apply p2_add; lia).
    nia.
Qed.

(** *** The operations as roundings of exact values *)
Lemma iter_xO (m d : positive) : Zpos (Pos.iter xO m d) = Zpos m * 2 ^ Zpos d.
Proof.
  rewrite (Pos.iter_swap_gen _ _ Zpos xO (Z.mul 2)) by (intros; reflexivity).
  rewrite <- Z.shiftl_mul_pow2 by lia. reflexivity.
Qed.

Lemma shl_align_spec (m : positive) (e e' : Z) :
  e' <= e ->
  Zpos (fst (shl_align m e e')) = Zpos m * 2 ^ (e - e') /\
  snd (shl_align m e e') = e'.
Proof.
  intros Hle. unfold shl_align. destruct (e' - e) as [|d|d] eqn:Hd.
  - assert (e = e') by lia. subst. rewrite Z.sub_diag. simpl. lia.
  - lia.
  - simpl. rewrite iter_xO. replace (e - e') with (Zpos d) by lia. lia.
Qed.

Lemma shl_align_id (m : positive) (e e' : Z) :
  e <= e' -> shl_align m e e' = (m, e).
Proof.
  intros Hle. unfold shl_align. destruct (e' - e) as [|d|d] eqn:Hd; try reflexivity. lia.
Qed.

Lemma Zdigits2_unique (M k : Z) :
  0 < M -> 2 ^ (k - 1) <= M < 2 ^ k -> Zdigits2 M = k.
Proof.
  intros HM [Hlo Hhi].
  assert (0 <= k).
  { destruct (Z_le_gt_dec 0 k); [lia|]. rewrite Z.pow_neg_r in Hhi by lia. lia. }
  pose proof (Zdigits2_le M k HM ltac:(lia) Hhi).
  destruct (Z.eq_dec k 0) as [->|].
  - simpl in Hhi. lia.
  - pose proof (Zdigits2_ge M (k - 1) HM Hlo). lia.
Qed.

Lemma Zdigits2_shift (M k : Z) :
  0 < M -> 0 <= k -> Zdigits2 (M * 2 ^ k) = Zdigits2 M + k.
Proof.
  intros HM Hk. pose proof (Zdigits2_bounds M HM) as [Hlo Hhi].
  pose proof (Zdigits2_nonneg M).
  assert (Hp : 0 < 2 ^ k) by (apply Z.pow_pos_nonneg; lia).
  assert (1 <= Zdigits2 M).
  { destruct (Z_le_gt_dec 1 (Zdigits2 M)); [lia|]. assert (H0 : Zdigits2 M = 0) by lia.
    rewrite H0 in Hhi. simpl in Hhi. lia. }
  apply Zdigits2_unique; [nia|].
  replace (Zdigits2 M + k - 1) with ((Zdigits2 M - 1) + k) by lia.
  rewrite !Z.pow_add_r by lia. nia.
Qed.

Lemma round_aux_rnd (s : bool) (m : positive) (e : Z) :
  e <= rnd_e (Zpos m) e ->
  binary_round_aux 53 1024 s (Zpos m) e loc_Exact
  = pack s (rnd_m (Zpos m) e) (rnd_e (Zpos m) e).
Proof.
  intros Hle. rewrite round_aux_spec. unfold rnd_m.
  change (fexp 53 1024 (Z.pos (digits2_pos m) + e)) with (rnd_e (Zpos m) e).
  set (t := rnd_e (Zpos m) e) in *.
  destruct (Z.leb_spec (t - e) 0) as [H0|Hgt].
  - assert (Hte : t = e) by lia.
    destruct (Z.leb_spec t e); [|lia].
    replace (e - t) with 0 by lia. rewrite Z.mul_1_r. by rewrite Hte.
  - destruct (Z.leb_spec t e); [lia|]. f_equal. lia.
Qed.

Lemma binary_round_rnd (s : bool) (m : positive) (e : Z) :
  binary_round 53 1024 s m e = pack s (rnd_m (Zpos m) e) (rnd_e (Zpos m) e).
Proof.
  unfold binary_round.
  change (fexp 53 1024 (Z.pos (digits2_pos m) + e)) with (rnd_e (Zpos m) e).
  set (t := rnd_e (Zpos m) e).
  destruct (Z_le_gt_dec t e) as [Hle|Hgt].
  - destruct (shl_align_spec m e t Hle) as [Hm He].
    destruct (shl_align m e t) as [mz ez]. simpl in Hm, He. subst ez.
    assert (Hte : rnd_e (Zpos mz) t = t).
    { unfold rnd_e. rewrite Hm. rewrite Zdigits2_shift by lia.
      replace (Zdigits2 (Zpos m) + (e - t) + t) with (Zdigits2 (Zpos m) + e) by lia.
      reflexivity. }
    rewrite round_aux_rnd by lia.
    rewrite Hte. f_equal. unfold rnd_m. rewrite Hte. fold t.
    destruct (Z.leb_spec t t); [|lia]. destruct (Z.leb_spec t e); [|lia].
    rewrite Z.sub_diag, Z.mul_1_r. exact Hm.
  - rewrite shl_align_id by lia. apply round_aux_rnd. fold t. lia.
Qed.

Lemma binary_normalize_rnd (S e : Z) :
  binary_normalize 53 1024 S e false =
    match S with
    | Z0 => S754_zero false
    | Zpos m => pack false (rnd_m (Zpos m) e) (rnd_e (Zpos m) e)
    | Zneg m => pack true (rnd_m (Zpos m) e) (rnd_e (Zpos m) e)
    end.
Proof. destruct S; [reflexivity| |]; apply binary_round_rnd. Qed.

Lemma aligned_val (s : bool) (m : positive) (e ez : Z) :
  -2148 <= ez -> ez <= e ->
  aligned s m e ez * p2 ez = val (S754_finite s m e).
Proof.
  intros Hz Hle. unfold aligned, val.
  destruct (shl_align_spec m e ez Hle) as [Hm _]. rewrite Hm.
  assert (Hp : p2 e = p2 ez * 2 ^ (e - ez)).
  { rewrite <- p2_add by lia. f_equal. lia. }
  rewrite Hp. destruct s; simpl; ring.
Qed.

Lemma fadd_finite (sx : bool) (mx : positive) (ex : Z) (sy : bool) (my : positive) (ey : Z) :
  fadd (S754_finite sx mx ex) (S754_finite sy my ey) =
    binary_normalize 53 1024
      (aligned sx mx ex (Z.min ex ey) + aligned sy my ey (Z.min ex ey))
      (Z.min ex ey) false.
Proof. reflexivity. Qed.

Lemma fsub_finite (sx : bool) (mx : positive) (ex : Z) (sy : bool) (my : positive) (ey : Z) :
  fsub (S754_finite sx mx ex) (S754_finite sy my ey) =
    binary_normalize 53 1024
      (aligned sx mx ex (Z.min ex ey) - aligned sy my ey (Z.min ex ey))
      (Z.min ex ey) false.
Proof. reflexivity. Qed.

Lemma fmul_finite (sx : bool) (mx : positive) (ex : Z) (sy : bool) (my : positive) (ey : Z) :
  fmul (S754_finite sx mx ex) (S754_finite sy my ey) =
    binary_round_aux 53 1024 (xorb sx sy) (Zpos (mx * my)) (ex + ey) loc_Exact.
Proof. reflexivity. Qed.

(** *** A rounded value stays between the numbers that enclose it *)
Lemma valid_pos_canon (y : double) :
  valid y -> 0 < val y ->
  exists my ey, y = S754_finite false my ey /\ canon (Zpos my) ey /\
                val y = Zpos my * p2 ey.
Proof.
  intros [Vy Fy] Hpos. destruct y as [s|s| |s my ey]; try discriminate;
    simpl in Hpos; try lia.
  apply valid_canon in Vy. pose proof Vy as (_ & He & _).
  pose proof (p2_pos ey ltac:(lia)).
  destruct s; simpl in Hpos; [nia|]. exists my, ey.
  split; [reflexivity|]. split; [exact Vy|reflexivity].
Qed.

Lemma valid_neg_canon (y : double) :
  valid y -> val y < 0 ->
  exists my ey, y = S754_finite true my ey /\ canon (Zpos my) ey /\
                val y = - (Zpos my * p2 ey).
Proof.
  intros [Vy Fy] Hneg. destruct y as [s|s| |s my ey]; try discriminate;
    simpl in Hneg; try lia.
  apply valid_canon in Vy. pose proof Vy as (_ & He & _).
  pose proof (p2_pos ey ltac:(lia)).
  destruct s; simpl in Hneg; [|nia]. exists my, ey.
  split; [reflexivity|]. split; [exact Vy|reflexivity].
Qed.

Lemma valid_zero (s : bool) : valid (S754_zero s).
Proof. by split. Qed.

(** An exact value between two finite numbers is rounded to a finite
    number between them. *)
Lemma round_between (S ez : Z) (lo hi : double) :
  -2148 <= ez -> valid lo -> valid hi ->
  val lo <= S * p2 ez <= val hi ->
  valid (binary_normalize 53 1024 S ez false) /\
  val lo <= val (binary_normalize 53 1024 S ez false) <= val hi.
Proof.
  intros Hez Vlo Vhi [Hlo Hhi]. rewrite binary_normalize_rnd.
  assert (Hpz : 0 < p2 ez) by (by apply p2_pos).
  destruct S as [|m|m].
  - split; [apply valid_zero|]. simpl in *. lia.
  - (* positive sum *)
    destruct (rnd_m_spec (Zpos m) ez ltac:(lia) Hez) as (Ht & Hm2 & Hc & _).
    assert (Hhipos : 0 < val hi) by nia.
    destruct (valid_pos_canon hi Vhi Hhipos) as (my & ey & -> & Hcy & Hvy).
    rewrite Hvy in *.
    destruct (rnd_upper (Zpos m) ez (Zpos my) ey ltac:(lia) Hez Hcy Hhi) as [Hup Hfin].
    specialize (Hfin false).
    set (t := rnd_e (Zpos m) ez) in *. set (m2 := rnd_m (Zpos m) ez) in *.
    assert (Hv : val (pack false m2 t) = m2 * p2 t).
    { rewrite pack_val by (try assumption; lia). reflexivity. }
    split; [split; [by apply pack_valid|exact Hfin]|].
    rewrite Hv. split; [|exact Hup].
    assert (Hpt : 0 < p2 t) by (apply p2_pos; lia).
    destruct (Z_le_gt_dec (val lo) 0) as [|Hlopos]; [nia|].
    destruct (valid_pos_canon lo Vlo ltac:(lia)) as (ml & el & -> & Hcl & Hvl).
    rewrite Hvl in *.
    apply (rnd_lower (Zpos m) ez (Zpos ml) el); try assumption; lia.
  - (* negative sum *)
    destruct (rnd_m_spec (Zpos m) ez ltac:(lia) Hez) as (Ht & Hm2 & Hc & _).
    assert (Hloneg : val lo < 0) by nia.
    destruct (valid_neg_canon lo Vlo Hloneg) as (ml & el & -> & Hcl & Hvl).
    rewrite Hvl in *.
    assert (Hle : Zpos m * p2 ez <= Zpos ml * p2 el) by lia.
    destruct (rnd_upper (Zpos m) ez (Zpos ml) el ltac:(lia) Hez Hcl Hle) as [Hup Hfin].
    specialize (Hfin true).
    set (t := rnd_e (Zpos m) ez) in *. set (m2 := rnd_m (Zpos m) ez) in *.
    assert (Hv : val (pack true m2 t) = - (m2 * p2 t)).
    { rewrite pack_val by (try assumption; lia). reflexivity. }
    split; [split; [by apply pack_valid|exact Hfin]|].
    rewrite Hv. split; [lia|].
    assert (Hpt : 0 < p2 t) by (apply p2_pos; lia).
    destruct (Z_le_gt_dec 0 (val hi)) as [|Hhineg]; [nia|].
    destruct (valid_neg_canon hi Vhi ltac:(lia)) as (mh & eh & -> & Hch & Hvh).
    rewrite Hvh in *.
    assert (Zpos mh * p2 eh <= m2 * p2 t); [|lia].
    apply (rnd_lower (Zpos m) ez (Zpos mh) eh); try assumption; lia.
Qed.

(** *** Sums *)
Lemma valid_exp (s : bool) (m : positive) (e : Z) :
  valid (S754_finite s m e) -> canon (Zpos m) e.
Proof. intros [V _]. by apply (valid_canon s). Qed.

(** A sum whose exact value lies between two finite numbers lies
    between them. *)
Lemma fadd_between (a b lo hi : double) :
  valid a -> valid b -> valid lo -> valid hi ->
  val lo <= val a + val b <= val hi ->
  valid (fadd a b) /\ val lo <= val (fadd a b) <= val hi.
Proof.
  intros Va Vb Vlo Vhi Hb.
  destruct a as [sa|sa| |sa ma ea]; try (destruct Va as [_ Fa]; discriminate);
  destruct b as [sb|sb| |sb mb eb]; try (destruct Vb as [_ Fb]; discriminate).
  - assert (Hz : exists s, fadd (S754_zero sa) (S754_zero sb) = S754_zero s)
      by (destruct sa, sb; eexists; reflexivity).
    destruct Hz as [s ->]. split; [apply valid_zero|]. simpl in *. lia.
  - change (fadd (S754_zero sa) (S754_finite sb mb eb)) with (S754_finite sb mb eb).
    split; [exact Vb|]. simpl val in *. lia.
  - change (fadd (S754_finite sa ma ea) (S754_zero sb)) with (S754_finite sa ma ea).
    split; [exact Va|]. simpl val in *. lia.
  - rewrite fadd_finite.
    pose proof (valid_exp _ _ _ Va) as (_ & Hea & _).
    pose proof (valid_exp _ _ _ Vb) as (_ & Heb & _).
    apply round_between; try assumption; [lia|].
    rewrite Z.mul_add_distr_r.
    rewrite !aligned_val by lia. exact Hb.
Qed.

(** *** Differences *)
Lemma rounded_magnitude (s : bool) (m : positive) (ez : Z) :
  -1074 <= ez ->
  let d := pack s (rnd_m (Zpos m) ez) (rnd_e (Zpos m) ez) in
  finite d = true ->
  valid d /\ (exists v, 0 <= v /\ val d = cond_Zopp s v /\
  (v <= Zpos m * p2 ez \/
   exists q t, 2 ^ 52 <= q < 2 ^ 53 /\ -1074 <= t <= 971 /\
     v = (q + 1) * p2 t /\ q * p2 t <= Zpos m * p2 ez)).
Proof.
  intros Hez d Hfin. unfold d in *. clear d.
  destruct (rnd_m_spec (Zpos m) ez ltac:(lia) ltac:(lia)) as (Ht & Hm2 & Hc & Hcase).
  set (t := rnd_e (Zpos m) ez) in *. set (m2 := rnd_m (Zpos m) ez) in *.
  clearbody t m2.
  assert (Hpt : 0 < p2 t) by (apply p2_pos; lia).
  split; [split; [by apply pack_valid|exact Hfin]|].
  exists (m2 * p2 t). split; [nia|].
  split; [apply pack_val; try assumption; lia|].
  destruct Hcase as [[_ Hex']|(Het & q & Hq & Hbr & _ & _ & Hq52)]; [left; lia|].
  destruct Hq as [Hq|Hq]; [left; rewrite Hq; lia|].
  right. exists q, t.
  apply pack_finite in Hfin; [|exact Hm2].
  split; [lia|]. split; [lia|]. split; [by rewrite Hq|lia].
Qed.

(** A finite difference has the sign of the exact difference, and its
    magnitude results from rounding the exact one. *)
Lemma fsub_spec (a b : double) :
  valid a -> valid b -> finite (fsub a b) = true ->
  valid (fsub a b) /\
  (0 <= val a - val b -> 0 <= val (fsub a b)) /\
  (val a - val b <= 0 -> val (fsub a b) <= 0) /\
  rounded_from (Z.abs (val (fsub a b))) (Z.abs (val a - val b)).
Proof.
  intros Va Vb Hfin.
  destruct a as [sx|sx| |sx mx ex]; try (destruct Va as [_ F]; discriminate);
  destruct b as [sn|sn| |sn mn en]; try (destruct Vb as [_ F]; discriminate).
  - assert (Hz : exists s, fsub (S754_zero sx) (S754_zero sn) = S754_zero s)
      by (destruct sx, sn; eexists; reflexivity).
    destruct Hz as [s ->]. split; [apply valid_zero|].
    change (val (S754_zero s)) with 0. change (val (S754_zero sx)) with 0.
    change (val (S754_zero sn)) with 0. unfold rounded_from. repeat split; lia.
  - change (fsub (S754_zero sx) (S754_finite sn mn en)) with (S754_finite (negb sn) mn en).
    destruct Vb as [V F]. split; [split; [exact V|reflexivity]|].
    change (val (S754_zero sx)) with 0.
    assert (E : val (S754_finite (negb sn) mn en) = - val (S754_finite sn mn en))
      by (destruct sn; simpl; lia).
    rewrite E. unfold rounded_from. repeat split; lia.
  - change (fsub (S754_finite sx mx ex) (S754_zero sn)) with (S754_finite sx mx ex).
    split; [exact Va|]. change (val (S754_zero sn)) with 0.
    unfold rounded_from. repeat split; lia.
  - pose proof (valid_exp _ _ _ Va) as (_ & Hex & _).
    pose proof (valid_exp _ _ _ Vb) as (_ & Hen & _).
    rewrite fsub_finite in *. set (ez := Z.min ex en) in *.
    assert (Hez : -1074 <= ez /\ ez <= ex /\ ez <= en) by (unfold ez; lia).
    clearbody ez.
    set (S := aligned sx mx ex ez - aligned sn mn en ez) in *.
    assert (HS : S * p2 ez = val (S754_finite sx mx ex) - val (S754_finite sn mn en)).
    { unfold S. rewrite Z.mul_sub_distr_r. rewrite !aligned_val by lia. reflexivity. }
    clearbody S. rewrite <- HS.
    assert (Hpz : 0 < p2 ez) by (apply p2_pos; lia).
    rewrite binary_normalize_rnd in *.
    destruct S as [|m|m].
    + split; [apply valid_zero|].
      change (val (S754_zero false)) with 0. unfold rounded_from.
      repeat split; lia.
    + destruct (rounded_magnitude false m ez ltac:(lia) Hfin) as (V & v & Hv0 & Hv & Hr).
      split; [exact V|]. rewrite Hv. simpl cond_Zopp.
      split; [lia|]. split; [nia|].
      rewrite (Z.abs_eq v) by lia. rewrite Z.abs_eq by nia. exact Hr.
    + destruct (rounded_magnitude true m ez ltac:(lia) Hfin) as (V & v & Hv0 & Hv & Hr).
      split; [exact V|]. rewrite Hv. simpl cond_Zopp.
      split; [nia|]. split; [lia|].
      rewrite Z.abs_opp, (Z.abs_eq v) by lia.
      replace (Z.abs (Z.neg m * p2 ez)) with (Zpos m * p2 ez) by nia. exact Hr.
Qed.

(** *** Products with a factor below one *)
Lemma val_zero_inv (x : double) : valid x -> val x = 0 -> exists s, x = S754_zero s.
Proof.
  intros Vx Hx. destruct x as [s|s| |s m e]; try (destruct Vx as [_ F]; discriminate).
  - by exists s.
  - pose proof (valid_exp _ _ _ Vx) as (_ & He & _).
    pose proof (p2_pos e ltac:(lia)). simpl in Hx. destruct s; simpl in Hx; nia.
Qed.

Lemma valid_nonzero_finite (x : double) :
  valid x -> val x <> 0 ->
  exists s m e, x = S754_finite s m e /\ canon (Zpos m) e.
Proof.
  intros Vx Hx. destruct x as [s|s| |s m e]; try (destruct Vx as [_ F]; discriminate).
  - exfalso. by apply Hx.
  - exists s, m, e. split; [reflexivity|]. by apply (valid_exp s).
Qed.

Lemma canon_below_one (mr er : Z) :
  canon mr er -> mr * p2 er < p2 0 -> mr * p2 er + p2 (-53) <= p2 0.
Proof.
  intros (Hm & He & Hc) Hlt.
  assert (Hpe : 0 < p2 er) by (apply p2_pos; lia).
  assert (Her : er < 0).
  { destruct (Z_lt_le_dec er 0); [lia|]. assert (p2 0 <= p2 er) by (apply p2_le; lia). nia. }
  destruct (Z_le_gt_dec (-53) er) as [Hge|Hlt53].
  - assert (H0 : p2 0 = p2 er * 2 ^ (- er)).
    { rewrite <- p2_add by lia. f_equal. lia. }
    assert (p2 (-53) <= p2 er) by (apply p2_le; lia).
    assert (0 < 2 ^ (- er)) by (apply Z.pow_pos_nonneg; lia).
    rewrite H0 in *. assert (mr + 1 <= 2 ^ (- er)) by nia. nia.
  - assert (H1 : p2 (er + 53) = p2 er * 2 ^ 53) by (apply p2_add; lia).
    assert (H2 : p2 (er + 53) <= p2 (-1)) by (apply p2_le; lia).
    assert (H3 : p2 0 = p2 (-1) * 2) by (apply (p2_add (-1) 1); lia).
    assert (H4 : p2 (-53) <= p2 (-1)) by (apply p2_le; lia).
    nia.
Qed.

Lemma mul_exp_ok (mr er md ed : Z) :
  canon mr er -> canon md ed -> er + ed <= rnd_e (mr * md) (er + ed).
Proof.
  intros (Hmr & Her & Hcr) (Hmd & Hed & Hcd). unfold rnd_e. rewrite fexp_eq.
  destruct (Z_le_gt_dec (er + ed) (-1074)) as [|Hgt]; [lia|].
  assert (H52 : 2 ^ 52 <= mr * md).
  { destruct Hcr as [->|Hr]; [destruct Hcd as [->|Hd]; [lia|nia]|nia]. }
  pose proof (Zdigits2_ge (mr * md) 52 ltac:(nia) H52). lia.
Qed.

Lemma fmul_setup (sd : bool) (mr : positive) (er : Z) (md : positive) (ed : Z) :
  canon (Zpos mr) er -> canon (Zpos md) ed ->
  fmul (S754_finite false mr er) (S754_finite sd md ed)
  = pack sd (rnd_m (Zpos (mr * md)) (er + ed)) (rnd_e (Zpos (mr * md)) (er + ed))
  /\ Zpos (mr * md) * p2 (er + ed) * p2 0 = (Zpos mr * p2 er) * (Zpos md * p2 ed).
Proof.
  intros Hr Hd. split.
  - rewrite fmul_finite. change (xorb false sd) with sd.
    apply round_aux_rnd. rewrite Pos2Z.inj_mul.
    by apply mul_exp_ok.
  - destruct Hr as (_ & Her & _), Hd as (_ & Hed & _).
    unfold p2. rewrite Pos2Z.inj_mul.
    replace (er + ed + 2148) with ((er + 2148) + ed) by lia.
    replace (0 + 2148) with 2148 by lia.
    assert (H : 2 ^ (er + 2148 + ed) * 2 ^ 2148 = 2 ^ (er + 2148) * 2 ^ (ed + 2148)).
    { rewrite <- !Z.pow_add_r by lia. f_equal. lia. }
    set (A := 2 ^ (er + 2148 + ed)) in *. set (B := 2 ^ 2148) in *.
    set (C := 2 ^ (er + 2148)) in *. set (E := 2 ^ (ed + 2148)) in *.
    transitivity (Zpos mr * Zpos md * (A * B)); [ring|]. rewrite H. ring.
Qed.

(** The rounded product of a factor in (0, 1) and a nonzero number
    [d]: its sign is that of [d], and its magnitude is at most any
    [D] from which the magnitude of [d] was rounded.  When [d] was
    rounded up to [(q + 1) * 2^t], the factor is at most [1 - 2^-53],
    so the exact product is nearer to [q * 2^t] than to
    [(q + 1) * 2^t] and is rounded down at least to [q * 2^t]. *)
Lemma fmul_magnitude (mr : positive) (er : Z) (sd : bool) (md : positive) (ed : Z) (D : Z) :
  canon (Zpos mr) er -> canon (Zpos md) ed ->
  Zpos mr * p2 er < p2 0 ->
  rounded_from (Zpos md * p2 ed) D ->
  let p := fmul (S754_finite false mr er) (S754_finite sd md ed) in
  valid p /\ exists v, 0 <= v <= D /\ val p = cond_Zopp sd v.
Proof.
  intros Cr Cd Hr HD p. unfold p. clear p.
  destruct (fmul_setup sd mr er md ed Cr Cd) as [-> HX].
  pose proof (canon_below_one _ _ Cr Hr) as Hr1.
  set (M := Zpos (mr * md)) in *. set (e := er + ed) in *.
  assert (He : -2148 <= e) by (destruct Cr as (_ & ? & _), Cd as (_ & ? & _); unfold e; lia).
  clearbody e.
  assert (HM : 0 < M) by (unfold M; lia). clearbody M.
  assert (H0 : 0 < p2 0) by (apply p2_pos; lia).
  assert (Hped : 0 < p2 ed) by (destruct Cd as (_ & ? & _); apply p2_pos; lia).
  assert (Hper : 0 < p2 er) by (destruct Cr as (_ & ? & _); apply p2_pos; lia).
  assert (Hlt : M * p2 e < Zpos md * p2 ed) by nia.
  destruct (rnd_upper M e (Zpos md) ed HM He Cd ltac:(lia)) as [Hup Hfin].
  destruct (rnd_m_spec M e HM He) as (Ht & Hm2 & Hc & Hcase).
  assert (Hpt : 0 < p2 (rnd_e M e)) by (apply p2_pos; lia).
  split; [split; [by apply pack_valid|apply Hfin]|].
  exists (rnd_m M e * p2 (rnd_e M e)).
  split; [|apply pack_val; try apply Hfin; try assumption; lia].
  split; [nia|].
  destruct HD as [HD|(q & t & Hq & Htq & Hd & HqD)]; [lia|].
  assert (G0 : 0 < p2 t) by (apply p2_pos; lia).
  assert (H53 : p2 0 = p2 (-53) * 2 ^ 53) by (apply (p2_add (-53) 53); lia).
  assert (Hm53 : 0 < p2 (-53)) by (apply p2_pos; lia).
  set (X := M * p2 e) in *. set (G := p2 t) in *.
  set (R := Zpos mr * p2 er) in *.
  assert (HXd : X < (q + 1) * G) by nia.
  assert (HXn : X * 2 ^ 53 <= (2 ^ 53 - 1) * ((q + 1) * G)).
  { assert (R * 2 ^ 53 <= (2 ^ 53 - 1) * p2 0) by nia.
    assert (X * p2 0 * 2 ^ 53 <= (2 ^ 53 - 1) * ((q + 1) * G) * p2 0).
    { rewrite HX, Hd. nia. }
    nia. }
  assert (Cq : canon q t) by (unfold canon; lia).
  destruct (Z_le_gt_dec X (q * G)) as [Hle|Hgt].
  - destruct (rnd_upper M e q t HM He Cq Hle) as [Hup' _]. fold G in Hup'. lia.
  - pose proof (Zdigits2_bounds M HM) as [Hlo Hhi].
    pose proof (Zdigits2_nonneg M) as HDn.
    assert (Hte : rnd_e M e = t).
    { unfold rnd_e. rewrite fexp_eq. set (Dg := Zdigits2 M) in *.
      assert (HD1 : 1 <= Dg).
      { destruct (Z.eq_dec Dg 0) as [HD0|]; [|lia]. rewrite HD0 in Hhi. simpl in Hhi. lia. }
      assert (Pe : 0 < p2 e) by (apply p2_pos; lia).
      assert (H1 : p2 (t + 52) < p2 (e + Dg)).
      { pose proof (p2_add t 52 ltac:(lia) ltac:(lia)) as E1.
        pose proof (p2_add e Dg ltac:(lia) ltac:(lia)) as E2.
        unfold X, G in *.
        assert (2 ^ 52 * p2 t <= q * p2 t) by (apply Z.mul_le_mono_nonneg_r; lia).
        assert (M * p2 e < 2 ^ Dg * p2 e) by (apply Z.mul_lt_mono_pos_r; lia).
        lia. }
      assert (H2 : e + Dg > t + 52).
      { destruct (Z_le_gt_dec (e + Dg) (t + 52)) as [Hc'|]; [|lia].
        pose proof (p2_le (e + Dg) (t + 52) ltac:(lia) Hc'). lia. }
      assert (H3 : Dg - 1 + e < t + 53).
      { destruct (Z_lt_le_dec (Dg - 1 + e) (t + 53)) as [|Hc']; [lia|].
        assert (E0 : p2 (t + 53) <= p2 (e + (Dg - 1))) by (apply p2_le; lia).
        pose proof (p2_add t 53 ltac:(lia) ltac:(lia)) as E1.
        pose proof (p2_add e (Dg - 1) ltac:(lia) ltac:(lia)) as E2.
        unfold X, G in *.
        assert (2 ^ (Dg - 1) * p2 e <= M * p2 e) by (apply Z.mul_le_mono_nonneg_r; lia).
        assert ((q + 1) * p2 t <= 2 ^ 53 * p2 t) by (apply Z.mul_le_mono_nonneg_r; lia).
        lia. }
      lia. }
    rewrite Hte in *. fold X G in Hcase.
    assert (Hmq : rnd_m M e = q).
    { destruct Hcase as [[_ Hex]|(_ & q' & Hq' & Hbr & _ & Hnear & _)].
      - exfalso.
        assert (q < rnd_m M e) by (apply (Z.mul_lt_mono_pos_r G); lia).
        assert (rnd_m M e < q + 1) by (apply (Z.mul_lt_mono_pos_r G); lia).
        lia.
      - assert (q' < q + 1) by (apply (Z.mul_lt_mono_pos_r G); lia).
        assert (q < q' + 1) by (apply (Z.mul_lt_mono_pos_r G); lia).
        assert (q' = q) as -> by lia.
        apply Hnear.
        assert (2 ^ 52 * G <= q * G) by (apply Z.mul_le_mono_nonneg_r; lia).
        lia. }
    rewrite Hmq. fold G. lia.
Qed.

Lemma fmul_zero_val (r d : double) :
  valid r -> valid d -> val r = 0 \/ val d = 0 ->
  valid (fmul r d) /\ val (fmul r d) = 0.
Proof.
  intros Vr Vd [H|H].
  - destruct (val_zero_inv r Vr H) as [s ->].
    destruct d as [sd|sd| |sd md ed]; try (destruct Vd as [_ F]; discriminate);
      (split; [apply valid_zero|reflexivity]).
  - destruct (val_zero_inv d Vd H) as [s ->].
    destruct r as [sr|sr| |sr mr er]; try (destruct Vr as [_ F]; discriminate);
      (split; [apply valid_zero|reflexivity]).
Qed.

Lemma rounded_from_nonneg (v D : Z) : 0 <= v -> rounded_from v D -> 0 <= D.
Proof.
  intros Hv [H|(q & t & Hq & Ht & _ & Hle)]; [lia|].
  pose proof (p2_pos t ltac:(lia)). nia.
Qed.

(** The product of a factor in [0, 1) and a difference [d] that was
    rounded from [D] is at most [D] in magnitude, with the sign of
    [d]. *)
Lemma fmul_below (r d : double) (D : Z) :
  valid r -> valid d -> 0 <= val r < p2 0 ->
  rounded_from (Z.abs (val d)) D ->
  valid (fmul r d) /\
  (0 <= val d -> 0 <= val (fmul r d) <= D) /\
  (val d <= 0 -> - D <= val (fmul r d) <= 0).
Proof.
  intros Vr Vd Hr HD.
  pose proof (rounded_from_nonneg _ _ (Z.abs_nonneg _) HD) as HD0.
  destruct (Z.eq_dec (val r) 0) as [Hr0|Hr0].
  { destruct (fmul_zero_val r d Vr Vd (or_introl Hr0)) as [V ->]. split; [exact V|]. lia. }
  destruct (Z.eq_dec (val d) 0) as [Hd0|Hd0].
  { destruct (fmul_zero_val r d Vr Vd (or_intror Hd0)) as [V ->]. split; [exact V|]. lia. }
  destruct (valid_nonzero_finite r Vr Hr0) as (sr & mr & er & -> & Cr).
  destruct (valid_nonzero_finite d Vd Hd0) as (sd & md & ed & -> & Cd).
  assert (Hper : 0 < p2 er) by (destruct Cr as (_ & ? & _); apply p2_pos; lia).
  assert (Hped : 0 < p2 ed) by (destruct Cd as (_ & ? & _); apply p2_pos; lia).
  change (val (S754_finite sr mr er)) with (cond_Zopp sr (Zpos mr * p2 er)) in *.
  change (val (S754_finite sd md ed)) with (cond_Zopp sd (Zpos md * p2 ed)) in *.
  destruct sr; [simpl in Hr; nia|]. simpl in Hr.
  assert (Ha : Z.abs (cond_Zopp sd (Zpos md * p2 ed)) = Zpos md * p2 ed)
    by (destruct sd; simpl; nia).
  rewrite Ha in HD.
  destruct (fmul_magnitude mr er sd md ed D Cr Cd ltac:(lia) HD) as (V & v & Hv & ->).
  split; [exact V|]. destruct sd; simpl; split; intros; nia.
Qed.

(** ** Claims about the random scale *)

Lemma feq_refl (x : double) : finite x = true -> feq x x.
Proof.
  unfold feq, SFeqb.
  destruct x as [s|s| |s m e]; try discriminate; intros _.
  - reflexivity.
  - destruct s; simpl; rewrite Z.compare_refl, Pos.compare_cont_refl; reflexivity.
Qed.

(** Adding a zero of either sign to a finite number gives that number
    (up to the sign of a zero result). *)
Lemma fadd_zero_l (s : bool) (x : double) :
  finite x = true -> feq (fadd (S754_zero s) x) x.
Proof.
  destruct x as [s'|s'| |s' m e]; try discriminate; intros _.
  - destruct s, s'; reflexivity.
  - apply (feq_refl (S754_finite s' m e)). reflexivity.
Qed.

Lemma fmul_zero_l (s : bool) (x : double) :
  finite x = true -> exists s', fmul (S754_zero s) x = S754_zero s'.
Proof.
  destruct x as [s'|s'| |s' m e]; try discriminate; intros _; eexists; reflexivity.
Qed.

Lemma fmul_zero_r (s : bool) (x : double) :
  finite x = true -> exists s', fmul x (S754_zero s) = S754_zero s'.
Proof.
  destruct x as [s'|s'| |s' m e]; try discriminate; intros _; eexists; reflexivity.
Qed.

Lemma fsub_diag (x : double) :
  finite x = true -> exists s, fsub x x = S754_zero s.
Proof.
  destruct x as [s'|s'| |s' m e]; try discriminate; intros _.
  - destruct s'; eexists; reflexivity.
  - exists false. unfold fsub. cbn [SFsub]. cbv zeta.
    rewrite Z.sub_diag. reflexivity.
Qed.

(** A draw of [0] gives the lower bound. *)
Lemma randomScaleOf_zero_draw (mn mx : double) :
  finite mn = true -> finite (fsub mx mn) = true ->
  feq (randomScaleOf 0 mn mx) mn.
Proof.
  intros Hmn Hd. unfold randomScaleOf.
  change (double_of_Z 0) with (S754_zero false).
  destruct (fmul_zero_l false (fsub mx mn) Hd) as [s' ->].
  by apply fadd_zero_l.
Qed.

(** With equal bounds every finite draw gives the bound. *)
Lemma randomScaleOf_equal_bounds (random mn : double) :
  finite random = true -> finite mn = true ->
  feq (randomScaleOf random mn mn) mn.
Proof.
  intros Hr Hmn. unfold randomScaleOf.
  destruct (fsub_diag mn Hmn) as [s ->].
  destruct (fmul_zero_r s random Hr) as [s' ->].
  by apply fadd_zero_l.
Qed.

(** The draw [1 - 2^-53], the largest number below [1], with the
    default bounds [1] and [3]: the product is [2 - 2^-52] and the sum
    [3 - 2^-52] lies halfway between two numbers, so it rounds to the
    even one, [3]. *)
Lemma randomScaleOf_reaches_upper_bound :
  fle 0 (draw (2 ^ 53 - 1) 53) /\ flt (draw (2 ^ 53 - 1) 53) 1 /\
  randomScaleOf (draw (2 ^ 53 - 1) 53) 1 3 = 3.
Proof. repeat split; vm_compute; reflexivity. Qed.

Lemma valid_of_Z_0 : valid (double_of_Z 0).
Proof. by split. Qed.

Lemma valid_of_Z_1 : valid (double_of_Z 1).
Proof. by split. Qed.

Lemma val_one : val (double_of_Z 1) = p2 0.
Proof. reflexivity. Qed.

(** With a draw in [0, 1) and finite bounds whose difference does not
    overflow, the scale lies between the bounds, whichever is the
    larger: the difference is the exact one rounded, the product is at
    most the exact difference in magnitude, and the sum is the
    rounding of a value between the bounds. *)
Lemma randomScaleOf_val_between (random mn mx : double) :
  valid random -> valid mn -> valid mx ->
  fle 0 random -> flt random 1 ->
  finite (fsub mx mn) = true ->
  valid (randomScaleOf random mn mx) /\
  Z.min (val mn) (val mx) <= val (randomScaleOf random mn mx) <= Z.max (val mn) (val mx).
Proof.
  intros Vr Vmn Vmx H0 H1 Hfin.
  apply (fle_val _ _ valid_of_Z_0 Vr) in H0.
  apply (flt_val _ _ Vr valid_of_Z_1) in H1. rewrite val_one in H1.
  change (val (double_of_Z 0)) with 0 in H0.
  destruct (fsub_spec mx mn Vmx Vmn Hfin) as (Vd & Hd0 & Hd1 & Hd).
  destruct (fmul_below random (fsub mx mn) _ Vr Vd ltac:(lia) Hd) as (Vp & Hp0 & Hp1).
  unfold randomScaleOf.
  destruct (Z_le_gt_dec (val mn) (val mx)) as [Hle|Hgt].
  - rewrite Z.min_l, Z.max_r by lia.
    apply fadd_between; try assumption.
    specialize (Hp0 (Hd0 ltac:(lia))). lia.
  - rewrite Z.min_r, Z.max_l by lia.
    apply fadd_between; try assumption.
    specialize (Hp1 (Hd1 ltac:(lia))). lia.
Qed.

Lemma randomScaleOf_within_bounds (random mn mx : double) :
  valid random -> valid mn -> valid mx ->
  fle 0 random -> flt random 1 -> fle mn mx ->
  finite (fsub mx mn) = true ->
  fle mn (randomScaleOf random mn mx) /\ fle (randomScaleOf random mn mx) mx.
Proof.
  intros Vr Vmn Vmx H0 H1 Hle Hfin.
  apply (fle_val _ _ Vmn Vmx) in Hle.
  destruct (randomScaleOf_val_between random mn mx Vr Vmn Vmx H0 H1 Hfin) as (Vs & Hs).
  split; by apply fle_val; [| |lia].
Qed.

Lemma randomScaleOf_within_reversed_bounds (random mn mx : double) :
  valid random -> valid mn -> valid mx ->
  fle 0 random -> flt random 1 -> fle mx mn ->
  finite (fsub mx mn) = true ->
  fle mx (randomScaleOf random mn mx) /\ fle (randomScaleOf random mn mx) mn.
Proof.
  intros Vr Vmn Vmx H0 H1 Hle Hfin.
  apply (fle_val _ _ Vmx Vmn) in Hle.
  destruct (randomScaleOf_val_between random mn mx Vr Vmn Vmx H0 H1 Hfin) as (Vs & Hs).
  split; by apply fle_val; [| |lia].
Qed.

(** C4, as stated, fails at the upper end.  With the default bounds
    [minScale = 1] and [maxScale = 3] and the draw [1 - 2^-53], which
    lies in [0, 1), the computed scale is [3]: it equals [maxScale], so
    it is not in [minScale, maxScale). *)
Lemma spawn_scale_reaches_maxScale_counterexample :
  let rt := sampleRuntime in
  let cfg := schemaAttribute_get rt sampleController in
  let random := draw (2 ^ 53 - 1) 53 in
  let rt' := touchStart sampleController 1000 random sampleTouch rt in
  let scale := randomScaleOf random (minScale cfg) (maxScale cfg) in
  500 < 1000 - lastOf sampleController rt /\
  truthy (entityToSpawn cfg) = Some sampleTemplate /\
  minScale cfg = 1 /\ maxScale cfg = 3 /\
  fle 0 random /\ flt random 1 /\
  fle (minScale cfg) (maxScale cfg) /\
  get ScaleAnimation (world rt') (nextEntity (world rt)) !! "toX"
    = Some (VNum scale) /\
  scale = maxScale cfg /\
  ~ (fle (minScale cfg) scale /\ flt scale (maxScale cfg)).
Proof.
  cbv zeta.
  split; [vm_compute; reflexivity|]. split; [vm_compute; reflexivity|].
  split; [vm_compute; reflexivity|]. split; [vm_compute; reflexivity|].
  split; [vm_compute; reflexivity|]. split; [vm_compute; reflexivity|].
  split; [vm_compute; reflexivity|]. split; [vm_compute; reflexivity|].
  split; [vm_compute; reflexivity|].
  intros [_ Hlt]. vm_compute in Hlt. discriminate.
Qed.

(** C4, amended.  On an accepted spawn the scale is
    [random * (maxScale - minScale) + minScale] computed in binary64
    arithmetic, each operation rounded, and it is the target of the
    scale animation on all three axes.  For a draw in [0, 1) and
    finite bounds with [minScale <= maxScale] whose difference does
    not overflow, the scale lies in the closed interval
    [minScale, maxScale]: the half-open interval of the claim with its
    upper end included, which rounding can reach. *)
Theorem spawn_scale_is_isotropic_and_within_closed_bounds
    (eid : Eid) (now : Z) (random : double) (e : TouchEvent) (rt : Runtime)
    (template : Eid) :
  500 < now - lastOf eid rt ->
  truthy (entityToSpawn (schemaAttribute_get rt eid)) = Some template ->
  let rt' := touchStart eid now random e rt in
  let cfg := schemaAttribute_get rt eid in
  let scale := fadd (fmul random (fsub (maxScale cfg) (minScale cfg))) (minScale cfg) in
  let anim := get ScaleAnimation (world rt') (nextEntity (world rt)) in
  anim !! "toX" = Some (VNum scale) /\
  anim !! "toY" = Some (VNum scale) /\
  anim !! "toZ" = Some (VNum scale) /\
  (valid random -> fle 0 random -> flt random 1 ->
   valid (minScale cfg) -> valid (maxScale cfg) ->
   fle (minScale cfg) (maxScale cfg) ->
   finite (fsub (maxScale cfg) (minScale cfg)) = true ->
   fle (minScale cfg) scale /\ fle scale (maxScale cfg)).
Proof.
  intros Hgt Ht rt' cfg scale anim.
  assert (Ha : anim = scaleAnimationProps scale)
    by apply (touchStart_spawn_get_ScaleAnimation eid now random e rt template Hgt Ht).
  destruct (scaleAnimationProps_fields scale)
    as (_ & _ & _ & HtX & HtY & HtZ & _).
  rewrite Ha.
  split; [exact HtX|]. split; [exact HtY|]. split; [exact HtZ|].
  intros Vr H0 H1 Vmn Vmx Hle Hfin.
  by apply randomScaleOf_within_bounds.
Qed.

Lemma spawn_scale_is_isotropic_and_within_closed_bounds_witness :
  let random := draw (2 ^ 53 - 1) 53 in
  500 < 1000 - lastOf sampleController sampleRuntime /\
  truthy (entityToSpawn (schemaAttribute_get sampleRuntime sampleController))
    = Some sampleTemplate /\
  valid random /\ fle 0 random /\ flt random 1 /\
  valid (double_of_Z 1) /\ valid (double_of_Z 3) /\ fle 1 3 /\
  finite (fsub 3 1) = true /\
  let rt' := touchStart sampleController 1000 random sampleTouch sampleRuntime in
  let anim := get ScaleAnimation (world rt') 10%N in
  anim !! "toX" = Some (VNum (randomScaleOf random 1 3)) /\
  anim !! "toY" = Some (VNum (randomScaleOf random 1 3)) /\
  anim !! "toZ" = Some (VNum (randomScaleOf random 1 3)) /\
  fle 1 (randomScaleOf random 1 3) /\ fle (randomScaleOf random 1 3) 3.
Proof.
  intros random.
  assert (Hgt : 500 < 1000 - lastOf sampleController sampleRuntime)
    by (vm_compute; reflexivity).
  assert (Ht : truthy (entityToSpawn (schemaAttribute_get sampleRuntime sampleController))
               = Some sampleTemplate) by (vm_compute; reflexivity).
  assert (Vr : valid random) by (split; vm_compute; reflexivity).
  assert (H0 : fle 0 random) by (vm_compute; reflexivity).
  assert (H1 : flt random 1) by (vm_compute; reflexivity).
  assert (Vmn : valid (double_of_Z 1)) by (split; vm_compute; reflexivity).
  assert (Vmx : valid (double_of_Z 3)) by (split; vm_compute; reflexivity).
  assert (Hle : fle 1 3) by (vm_compute; reflexivity).
  assert (Hfin : finite (fsub 3 1) = true) by (vm_compute; reflexivity).
  destruct (spawn_scale_is_isotropic_and_within_closed_bounds sampleController 1000
              random sampleTouch sampleRuntime sampleTemplate Hgt Ht)
    as (HtX & HtY & HtZ & Hbound).
  split; [exact Hgt|]. split; [exact Ht|]. split; [exact Vr|].
  split; [exact H0|]. split; [exact H1|]. split; [exact Vmn|].
  split; [exact Vmx|]. split; [exact Hle|]. split; [exact Hfin|].
  intros rt' anim.
  split; [exact HtX|]. split; [exact HtY|]. split; [exact HtZ|].
  exact (Hbound Vr H0 H1 Vmn Vmx Hle Hfin).
Defined.

(** ** Claims about activation and the template reference *)

Lemma onEnter_dataAttribute eid rt :
  dataAttribute (onEnter eid rt) = dataAttribute rt.
Proof.
  unfold onEnter. by destruct (truthy (entityToSpawn (schemaAttribute_get rt eid))).
Qed.

Lemma onEnter_schemaAttribute eid rt :
  schemaAttribute (onEnter eid rt) = schemaAttribute rt.
Proof.
  unfold onEnter. by destruct (truthy (entityToSpawn (schemaAttribute_get rt eid))).
Qed.

Lemma onEnter_lastOf eid rt : lastOf eid (onEnter eid rt) = lastOf eid rt.
Proof. unfold lastOf, dataAttribute_get. by rewrite onEnter_dataAttribute. Qed.

Lemma truthy_None (r : option Eid) :
  truthy r = None <-> r = None \/ r = Some 0%N.
Proof.
  unfold truthy. destruct r as [x|].
  - destruct (N.eqb_spec x 0) as [->|Hne]; split.
    + intros _. by right.
    + done.
    + discriminate.
    + intros [H|H]; [discriminate|]. congruence.
  - split; [intros _; by left|done].
Qed.

Lemma truthy_Some (r : option Eid) (x : Eid) :
  truthy r = Some x <-> r = Some x /\ x <> 0%N.
Proof.
  unfold truthy. destruct r as [y|].
  - destruct (N.eqb_spec y 0) as [->|Hne]; split.
    + discriminate.
    + intros [H Hx]. congruence.
    + intros H. inversion H; subst. done.
    + intros [H _]. exact H.
  - split; [discriminate|]. intros [H _]. discriminate.
Qed.

Lemma elem_of_componentsForClone (k : Component) :
  k ∈ componentsForClone <-> kindGroup k <> GUnlisted.
Proof.
  split.
  - intros H Hg. unfold componentsForClone in H.
    repeat (apply elem_of_cons in H as [->|H]; [discriminate Hg|]).
    by apply elem_of_nil in H.
  - intros Hg. unfold componentsForClone. rewrite !elem_of_cons.
    destruct k; try (exfalso; by apply Hg);
      repeat first [left; reflexivity | right].
Qed.

Lemma not_elem_of_componentsForClone (k : Component) :
  k ∉ componentsForClone <-> kindGroup k = GUnlisted.
Proof.
  rewrite elem_of_componentsForClone.
  destruct (decide (kindGroup k = GUnlisted)) as [Heq|Hne]; split.
  - intros _. exact Heq.
  - intros _ H. by apply H.
  - intros H. exfalso. by apply H.
  - intros H. by exfalso.
Qed.

Lemma Disabled_not_cloned : Disabled ∉ componentsForClone.
Proof. by apply not_elem_of_componentsForClone. Qed.

Lemma cloneComponents_unlisted sourceEid targetEid w k e :
  k ∉ componentsForClone ->
  components (cloneComponents sourceEid targetEid w) !! (k, e)
  = components w !! (k, e).
Proof.
  intros Hk. rewrite cloneComponents_lookup.
  rewrite decide_False; [done|]. by intros (_ & Hin & _).
Qed.

(** Nothing the listener does reaches a [Disabled] marker. *)
Lemma spawnOrReport_Disabled cfg random e rt x :
  components (world (spawnOrReport cfg random e rt)) !! (Disabled, x)
  = components (world rt) !! (Disabled, x).
Proof.
  unfold spawnOrReport. destruct (truthy (entityToSpawn cfg)) as [template|]; [|done].
  cbv beta iota zeta delta [createEntity with_world world].
  rewrite components_set, decide_False by discriminate.
  rewrite components_set, decide_False by discriminate.
  rewrite cloneComponents_unlisted by apply Disabled_not_cloned.
  reflexivity.
Qed.

Lemma touchStart_Disabled eid now random e rt x :
  components (world (touchStart eid now random e rt)) !! (Disabled, x)
  = components (world rt) !! (Disabled, x).
Proof.
  unfold touchStart.
  destruct (now - lastInteractionTime (dataAttribute_get rt eid) <=? 500); [done|].
  by rewrite spawnOrReport_Disabled.
Qed.

Lemma run_Disabled eid taps rt x :
  components (world (run eid taps rt)) !! (Disabled, x)
  = components (world rt) !! (Disabled, x).
Proof.
  unfold run. revert rt. induction taps as [|t taps IH]; intros rt; simpl; [done|].
  rewrite IH. unfold deliver. apply touchStart_Disabled.
Qed.

(** C7, as stated, fails when the clock reads at most 500: the
    timestamp of a controller that was never tapped is [0], so a first
    tap at clock reading [300] is inside the cooldown window and is
    ignored. *)
Lemma first_tap_early_clock_counterexample :
  let rt := onEnter sampleController sampleRuntime in
  dataAttribute rt !! sampleController = None /\
  truthy (entityToSpawn (schemaAttribute_get rt sampleController))
    = Some sampleTemplate /\
  touchStart sampleController 300 (draw 1 1) sampleTouch rt = rt.
Proof.
  cbv zeta. split; [vm_compute; reflexivity|]. split; [vm_compute; reflexivity|].
  apply touchStart_ignored. vm_compute. discriminate.
Qed.

(** Whatever timestamp is stored, a tap at that very clock reading is
    inside the cooldown window: no integer initial value lets every
    first tap through. *)
Lemma tap_at_stored_timestamp_ignored eid random e rt :
  touchStart eid (lastOf eid rt) random e rt = rt.
Proof. apply touchStart_ignored. lia. Qed.

(** C7, amended.  On a freshly activated controller (no stored data, so
    the timestamp is the initial [0]) the first touch event is accepted
    exactly when the clock reads more than 500: then the timestamp
    becomes the clock reading and, with a template configured, an
    entity is created; at a clock reading of at most 500 the event is
    ignored. *)
Theorem first_tap_accepted_when_clock_past_cooldown
    (eid : Eid) (now : Z) (random : double) (e : TouchEvent) (rt : Runtime) :
  dataAttribute rt !! eid = None ->
  let rt0 := onEnter eid rt in
  let rt' := touchStart eid now random e rt0 in
  lastOf eid rt0 = 0 /\
  (500 < now ->
     lastOf eid rt' = now /\
     forall template,
       truthy (entityToSpawn (schemaAttribute_get rt eid)) = Some template ->
       nextEntity (world rt') = N.succ (nextEntity (world rt0))) /\
  (now <= 500 -> rt' = rt0).
Proof.
  intros Hfresh rt0 rt'.
  assert (H0 : lastOf eid rt0 = 0).
  { unfold rt0. rewrite onEnter_lastOf. unfold lastOf, dataAttribute_get.
    by rewrite Hfresh. }
  split; [exact H0|]. split.
  - intros Hgt. assert (Hacc : 500 < now - lastOf eid rt0) by lia.
    split; [by apply lastOf_accepted|].
    intros template Ht.
    apply (touchStart_spawn_nextEntity eid now random e rt0 template Hacc).
    unfold schemaAttribute_get, rt0. rewrite onEnter_schemaAttribute. exact Ht.
  - intros Hle. apply touchStart_ignored. lia.
Qed.

Lemma first_tap_accepted_when_clock_past_cooldown_witness :
  dataAttribute sampleRuntime !! sampleController = None /\
  500 < 1000 /\
  truthy (entityToSpawn (schemaAttribute_get sampleRuntime sampleController))
    = Some sampleTemplate /\
  let rt0 := onEnter sampleController sampleRuntime in
  let rt' := touchStart sampleController 1000 (draw 1 1) sampleTouch rt0 in
  lastOf sampleController rt' = 1000 /\
  nextEntity (world rt') = N.succ (nextEntity (world rt0)).
Proof.
  assert (Hfresh : dataAttribute sampleRuntime !! sampleController = None)
    by (vm_compute; reflexivity).
  assert (Hgt : 500 < 1000) by lia.
  assert (Ht : truthy (entityToSpawn (schemaAttribute_get sampleRuntime sampleController))
               = Some sampleTemplate) by (vm_compute; reflexivity).
  destruct (first_tap_accepted_when_clock_past_cooldown sampleController 1000
              (draw 1 1) sampleTouch sampleRuntime Hfresh) as (_ & Hacc & _).
  destruct (Hacc Hgt) as (Hlast & Hspawn).
  split; [exact Hfresh|]. split; [exact Hgt|]. split; [exact Ht|].
  intros rt0 rt'. split; [exact Hlast|]. exact (Hspawn sampleTemplate Ht).
Defined.

(** C8.  [onEnter] marks a configured (truthy) template as disabled,
    creating no entity and reporting nothing, and the marker stays
    through any sequence of taps; with no template [onEnter] changes
    nothing, and the configuration error appears at the first tap that
    passes the cooldown test. *)
Theorem onEnter_disables_template (eid : Eid) (rt : Runtime) :
  (forall template,
     truthy (entityToSpawn (schemaAttribute_get rt eid)) = Some template ->
     has Disabled (world (onEnter eid rt)) template = true /\
     nextEntity (world (onEnter eid rt)) = nextEntity (world rt) /\
     console (onEnter eid rt) = console rt /\
     forall taps,
       has Disabled (world (run eid taps (onEnter eid rt))) template = true) /\
  (truthy (entityToSpawn (schemaAttribute_get rt eid)) = None ->
     onEnter eid rt = rt /\
     forall now random e,
       500 < now - lastOf eid rt ->
       console (touchStart eid now random e rt)
       = console rt ++ [missingTemplateMessage]).
Proof.
  split.
  - intros template Ht.
    assert (Hd : has Disabled (world (onEnter eid rt)) template = true).
    { unfold onEnter. rewrite Ht. apply has_true. simpl.
      rewrite lookup_insert_eq. eauto. }
    split; [exact Hd|]. split; [|split].
    + unfold onEnter. by rewrite Ht.
    + unfold onEnter. by rewrite Ht.
    + intros taps. apply has_true. rewrite run_Disabled. by apply has_true.
  - intros Hnone. split.
    + unfold onEnter. by rewrite Hnone.
    + intros now random e Hgt. rewrite touchStart_accepted by done.
      by rewrite spawnOrReport_report.
Qed.

Lemma onEnter_disables_template_witness :
  truthy (entityToSpawn (schemaAttribute_get sampleRuntime sampleController))
    = Some sampleTemplate /\
  has Disabled sampleWorld sampleTemplate = false /\
  has Disabled (world (onEnter sampleController sampleRuntime)) sampleTemplate = true /\
  has Disabled
    (world (run sampleController sampleTaps (onEnter sampleController sampleRuntime)))
    sampleTemplate = true /\
  truthy (entityToSpawn (schemaAttribute_get sampleUnconfigured sampleController))
    = None /\
  onEnter sampleController sampleUnconfigured = sampleUnconfigured.
Proof.
  assert (Ht : truthy (entityToSpawn (schemaAttribute_get sampleRuntime sampleController))
               = Some sampleTemplate) by (vm_compute; reflexivity).
  assert (Hn : truthy (entityToSpawn
                 (schemaAttribute_get sampleUnconfigured sampleController)) = None)
    by (vm_compute; reflexivity).
  destruct (onEnter_disables_template sampleController sampleRuntime) as (Hset & _).
  destruct (Hset sampleTemplate Ht) as (Hd & _ & _ & Hrun).
  destruct (onEnter_disables_template sampleController sampleUnconfigured) as (_ & Hnoop).
  destruct (Hnoop Hn) as (Hsame & _).
  split; [exact Ht|]. split; [vm_compute; reflexivity|]. split; [exact Hd|].
  split; [exact (Hrun sampleTaps)|]. split; [exact Hn|]. exact Hsame.
Defined.

(** C10.  The template test is truthiness of the id, so a reference
    that is falsy, that is unset or the id [0], disables nothing on
    activation and sends every tap that passes the cooldown test to the
    report branch: the error is appended, no entity is created and no
    attribute is written.  A controller configured with the id [0]
    leaves the same world, data and console as one whose template is
    unset. *)
Theorem zero_template_is_treated_as_unset
    (eid : Eid) (mn mx : double) (rt : Runtime) :
  let rtZero := configure eid (mkSchema (Some 0%N) mn mx) rt in
  let rtUnset := configure eid (mkSchema None mn mx) rt in
  (forall r : option Eid, truthy r = None <-> r = None \/ r = Some 0%N) /\
  onEnter eid rtZero = rtZero /\
  onEnter eid rtUnset = rtUnset /\
  forall now random e,
    world (touchStart eid now random e rtZero)
      = world (touchStart eid now random e rtUnset) /\
    dataAttribute (touchStart eid now random e rtZero)
      = dataAttribute (touchStart eid now random e rtUnset) /\
    console (touchStart eid now random e rtZero)
      = console (touchStart eid now random e rtUnset) /\
    (500 < now - lastOf eid rtZero ->
       world (touchStart eid now random e rtZero) = world rtZero /\
       console (touchStart eid now random e rtZero)
         = console rtZero ++ [missingTemplateMessage]).
Proof.
  intros rtZero rtUnset.
  assert (HcfgZ : schemaAttribute_get rtZero eid = mkSchema (Some 0%N) mn mx).
  { unfold schemaAttribute_get, rtZero, configure. simpl. by rewrite lookup_insert_eq. }
  assert (HcfgU : schemaAttribute_get rtUnset eid = mkSchema None mn mx).
  { unfold schemaAttribute_get, rtUnset, configure. simpl. by rewrite lookup_insert_eq. }
  split; [exact truthy_None|].
  split; [unfold onEnter; by rewrite HcfgZ|].
  split; [unfold onEnter; by rewrite HcfgU|].
  intros now random e.
  assert (Hlast : lastOf eid rtUnset = lastOf eid rtZero) by reflexivity.
  destruct (Z.le_gt_cases (now - lastOf eid rtZero) 500) as [Hle|Hgt].
  - rewrite !touchStart_ignored by (rewrite ?Hlast; exact Hle).
    split; [done|]. split; [done|]. split; [done|]. intros ?; lia.
  - rewrite !touchStart_accepted by (rewrite ?Hlast; lia).
    rewrite HcfgZ, HcfgU.
    rewrite !spawnOrReport_report by reflexivity.
    split; [done|]. split; [done|]. split; [done|]. intros _. split; reflexivity.
Qed.

Lemma zero_template_is_treated_as_unset_witness :
  let rtZero := configure sampleController (mkSchema (Some 0%N) 1 3) sampleRuntime in
  500 < 1000 - lastOf sampleController rtZero /\
  onEnter sampleController rtZero = rtZero /\
  world (touchStart sampleController 1000 (draw 1 1) sampleTouch rtZero) = sampleWorld /\
  console (touchStart sampleController 1000 (draw 1 1) sampleTouch rtZero)
    = [missingTemplateMessage].
Proof.
  intros rtZero.
  assert (Hgt : 500 < 1000 - lastOf sampleController rtZero) by (vm_compute; reflexivity).
  destruct (zero_template_is_treated_as_unset sampleController 1 3 sampleRuntime)
    as (_ & Henter & _ & Htap).
  destruct (Htap 1000 (draw 1 1) sampleTouch) as (_ & _ & _ & Hreport).
  destruct (Hreport Hgt) as (Hworld & Hconsole).
  split; [exact Hgt|]. split; [exact Henter|]. split; [exact Hworld|]. exact Hconsole.
Defined.

(** ** Claims about the registry *)

(** C9, as stated, fails on the count of animation kinds: the
    specification's enumeration has four of them (nineteen kinds in
    all), the registry of the source has three (eighteen in all). *)
Lemma registry_animation_kinds_counterexample :
  registryShape componentsForClone <> specRegistryShape /\
  Datatypes.length componentsForClone = 18%nat /\
  list_sum (map snd specRegistryShape) = 19%nat.
Proof.
  split; [|split].
  - vm_compute. discriminate.
  - reflexivity.
  - reflexivity.
Qed.

(** C9, amended.  The registry is the fixed ordered list of eighteen
    distinct kinds: position, orientation, scale, shadow flag, box
    geometry, material, the three animation kinds (scale, position and
    rotate animation), the two custom-property/vector animations, the
    two follow/look-at behaviours, model reference, collider, particle
    emitter, UI and audio.  The list is closed: a kind belongs to it
    exactly when it is one of these, and a clone never changes an
    attribute of any other kind. *)
Theorem registry_is_fixed_ordered_closed :
  registryShape componentsForClone = codeRegistryShape /\
  filter (fun k => kindGroup k = GAnimation) componentsForClone
    = [ScaleAnimation; PositionAnimation; RotateAnimation] /\
  NoDup componentsForClone /\
  Datatypes.length componentsForClone = 18%nat /\
  (forall k, k ∈ componentsForClone <-> kindGroup k <> GUnlisted) /\
  (forall sourceEid targetEid w k e,
     k ∉ componentsForClone ->
     components (cloneComponents sourceEid targetEid w) !! (k, e)
     = components w !! (k, e)) /\
  (forall sourceEid targetEid w k,
     k ∈ componentsForClone -> has k w sourceEid = true ->
     components (cloneComponents sourceEid targetEid w) !! (k, targetEid)
     = components w !! (k, sourceEid)).
Proof.
  split; [vm_compute; reflexivity|].
  split; [vm_compute; reflexivity|].
  split.
  { apply (bool_decide_unpack (NoDup componentsForClone)). vm_compute. exact I. }
  split; [reflexivity|].
  split; [exact elem_of_componentsForClone|].
  split.
  - intros sourceEid targetEid w k e Hk. by apply cloneComponents_unlisted.
  - intros sourceEid targetEid w k Hin Hhas. rewrite cloneComponents_lookup.
    rewrite decide_True; [done|]. split_and!; [done..|]. by apply has_true.
Qed.

Lemma registry_is_fixed_ordered_closed_witness :
  (Disabled ∉ componentsForClone) /\
  (GltfModel ∈ componentsForClone) /\
  has GltfModel sampleWorld sampleTemplate = true /\
  let w' := cloneComponents sampleTemplate sampleBystander
              (set Disabled sampleWorld sampleTemplate ∅) in
  components w' !! (Disabled, sampleBystander) = None /\
  components w' !! (GltfModel, sampleBystander)
    = components sampleWorld !! (GltfModel, sampleTemplate).
Proof.
  destruct registry_is_fixed_ordered_closed
    as (_ & _ & _ & _ & Hmem & Hclosed & Hcopy).
  assert (Hd : Disabled ∉ componentsForClone).
  { intros Hin. apply Hmem in Hin. by apply Hin. }
  assert (Hg : GltfModel ∈ componentsForClone) by (apply Hmem; discriminate).
  assert (Hh : has GltfModel (set Disabled sampleWorld sampleTemplate ∅) sampleTemplate
               = true) by (vm_compute; reflexivity).
  split; [exact Hd|]. split; [exact Hg|]. split; [vm_compute; reflexivity|].
  intros w'. split.
  - unfold w'. rewrite (Hclosed _ _ _ Disabled sampleBystander Hd).
    vm_compute. reflexivity.
  - unfold w'. rewrite (Hcopy _ _ _ GltfModel Hg Hh). vm_compute. reflexivity.
Defined.

(** * The LINE login flow *)

Ltac liff_unfold :=
  unfold main, initializeLiff, initializeLiffBody, setupWith8thWall,
    createUserDisplay, whenXR8, tryCatch, bind, ret, loadLiffSDK, getLiff,
    liffCall, consoleLog, consoleErrorEntry, modifyPage, sdkAfterLoad.

Ltac liff_step :=
  match goal with
  | H : windowLiff ?p = _ |- context [windowLiff ?p] => rewrite H; simpl
  | H : windowXR8 ?p = _ |- context [windowXR8 ?p] => rewrite H; simpl
  | |- context [match windowLiff ?p with _ => _ end] =>
      destruct (windowLiff p) eqn:?; simpl
  | |- context [match ?load with Loaded _ => _ | LoadFailed => _ | LoadPending => _ end] =>
      destruct load as [[?|]| |]; simpl
  | |- context [match init ?sdk ?id with _ => _ end] =>
      destruct (init sdk id) as [[]| |] eqn:?; simpl
  | |- context [match isLoggedIn ?sdk with _ => _ end] =>
      destruct (isLoggedIn sdk) as [[|]| |] eqn:?; simpl
  | |- context [match login ?sdk with _ => _ end] =>
      destruct (login sdk) as [[]| |] eqn:?; simpl
  | |- context [match getProfile ?sdk with _ => _ end] =>
      destruct (getProfile sdk) as [?| |] eqn:?; simpl
  | |- context [match windowXR8 ?p with _ => _ end] =>
      destruct (windowXR8 p) eqn:?; simpl
  end.

Ltac liff_cases := liff_unfold; simpl; repeat liff_step.

(** X1.  No exception leaves [initializeLiff] or the main execution:
    whatever the script load and the SDK do, each completes with a
    value or, when an awaited step never settles, does not complete. *)
Theorem login_flow_never_throws (load : ScriptLoad) (p : Page) (error : JsError) :
  snd (initializeLiff load p) <> Throw error /\ snd (main load p) <> Throw error.
Proof.
  split; liff_cases; discriminate.
Qed.

(** X2.  The SDK script is injected only when [window.liff] is missing:
    with the SDK on the page the head is untouched; without it exactly
    one [script] element, with the LIFF SDK URL, is appended. *)
Theorem sdk_script_injected_only_when_missing (load : ScriptLoad) (p : Page) :
  documentHead (fst (main load p)) =
    match windowLiff p with
    | Some _ => documentHead p
    | None => documentHead p ++ [mkElement "script" (Some liffSdkUrl) ∅ ""]
    end.
Proof.
  liff_cases; try reflexivity.
Qed.

(** X3.  [initializeLiff] resolves with a user exactly when the SDK is
    available after the load, [init] with the LIFF id resolves, the
    user is logged in and [getProfile] resolves; the user is then the
    profile's id and display name. *)
Theorem initializeLiff_success_iff (load : ScriptLoad) (p : Page) (info : UserInfo) :
  snd (initializeLiff load p) = Done (Some info) <->
  exists sdk profile,
    sdkAfterLoad load p = Some sdk /\
    init sdk LIFF_ID = Done tt /\
    isLoggedIn sdk = Done true /\
    getProfile sdk = Done profile /\
    info = mkUserInfo (profileUserId profile) (profileDisplayName profile).
Proof.
  split.
  - liff_cases; intros H; try discriminate; inversion H; subst;
      eexists _, _; repeat split; first [reflexivity | eassumption].
  - intros (sdk & profile & Hsdk & Hinit & Hin & Hprof & ->).
    revert Hsdk. liff_unfold. simpl.
    destruct (windowLiff p) as [s|] eqn:Hw; simpl.
    + intros Hs. inversion Hs; subst s.
      repeat (first [rewrite Hw | rewrite Hinit | rewrite Hin | rewrite Hprof]; simpl).
      reflexivity.
    + destruct load as [[s|]| |]; simpl; try discriminate.
      intros Hs. inversion Hs; subst s.
      repeat (first [rewrite Hinit | rewrite Hin | rewrite Hprof]; simpl).
      reflexivity.
Qed.

Lemma initializeLiff_success_iff_witness :
  sdkAfterLoad (Loaded (Some sampleSdk)) samplePage = Some sampleSdk /\
  snd (initializeLiff (Loaded (Some sampleSdk)) samplePage)
    = Done (Some (mkUserInfo "U4af4980629" "Brown")).
Proof.
  split; [reflexivity|].
  apply (initializeLiff_success_iff (Loaded (Some sampleSdk)) samplePage).
  exists sampleSdk, sampleProfile. repeat split; reflexivity.
Defined.

(** X4.  A user who is not logged in is sent to the LINE login and
    nothing else happens: the calls on the SDK are [init] with the LIFF
    id, [isLoggedIn] and [login], in this order, the profile is never
    requested, and the main execution leaves the user fields of
    [window], [XR8] and the body as they were. *)
Theorem logged_out_user_is_redirected
    (load : ScriptLoad) (p : Page) (sdk : LiffSdk) :
  sdkAfterLoad load p = Some sdk ->
  init sdk LIFF_ID = Done tt ->
  isLoggedIn sdk = Done false ->
  let p' := fst (main load p) in
  liffCalls p' = liffCalls p ++ [CallInit LIFF_ID; CallIsLoggedIn; CallLogin] /\
  windowLineUserId p' = windowLineUserId p /\
  windowLineDisplayName p' = windowLineDisplayName p /\
  windowXR8 p' = windowXR8 p /\
  documentBody p' = documentBody p /\
  (login sdk <> Never -> snd (initializeLiff load p) = Done None).
Proof.
  intros Hsdk Hinit Hin. revert Hsdk. liff_unfold. simpl.
  destruct (windowLiff p) as [s|] eqn:Hw; simpl.
  - intros Hs. inversion Hs; subst s.
    repeat (first [rewrite Hw | rewrite Hinit | rewrite Hin]; simpl).
    destruct (login sdk) as [[]| |] eqn:Hl; simpl;
      rewrite <- ?app_assoc; repeat split; try reflexivity; intros H; by destruct H.
  - destruct load as [[s|]| |]; simpl; try discriminate.
    intros Hs. inversion Hs; subst s.
    repeat (first [rewrite Hinit | rewrite Hin]; simpl).
    destruct (login sdk) as [[]| |] eqn:Hl; simpl;
      rewrite <- ?app_assoc; repeat split; try reflexivity; intros H; by destruct H.
Qed.

Lemma logged_out_user_is_redirected_witness :
  sdkAfterLoad (Loaded (Some sampleSdkLoggedOut)) samplePageXR8
    = Some sampleSdkLoggedOut /\
  let p' := fst (main (Loaded (Some sampleSdkLoggedOut)) samplePageXR8) in
  liffCalls p' = [CallInit LIFF_ID; CallIsLoggedIn; CallLogin] /\
  windowLineUserId p' = None /\
  windowXR8 p' = Some (mkXR8 None None []) /\
  documentBody p' = [].
Proof.
  assert (Hsdk : sdkAfterLoad (Loaded (Some sampleSdkLoggedOut)) samplePageXR8
                 = Some sampleSdkLoggedOut) by reflexivity.
  destruct (logged_out_user_is_redirected (Loaded (Some sampleSdkLoggedOut))
              samplePageXR8 sampleSdkLoggedOut Hsdk eq_refl eq_refl)
    as (Hcalls & Huid & _ & Hxr & Hbody & _).
  split; [exact Hsdk|]. intros p'.
  split; [exact Hcalls|]. split; [exact Huid|]. split; [exact Hxr|]. exact Hbody.
Defined.

(** X5.  The calls the flow makes on the SDK follow one protocol: they
    are an initial part of [init(LIFF id), isLoggedIn, login] or of
    [init(LIFF id), isLoggedIn, getProfile].  So [init] always comes
    first and with the fixed id, and [login] and [getProfile] are never
    both called. *)
Theorem liff_calls_follow_protocol (load : ScriptLoad) (p : Page) :
  exists calls,
    liffCalls (fst (main load p)) = liffCalls p ++ calls /\
    (calls `prefix_of` [CallInit LIFF_ID; CallIsLoggedIn; CallLogin] \/
     calls `prefix_of` [CallInit LIFF_ID; CallIsLoggedIn; CallGetProfile]).
Proof.
  assert (Hp : forall (l k : list LiffCall), l `prefix_of` l ++ k)
    by (intros l k; by exists k).
  liff_cases; rewrite <- ?app_assoc; simpl;
    first
      [ exists []; split; [by rewrite app_nil_r|left; apply prefix_nil]
      | exists [CallInit LIFF_ID]; split; [reflexivity|];
        left; apply (Hp [CallInit LIFF_ID])
      | exists [CallInit LIFF_ID; CallIsLoggedIn]; split; [reflexivity|];
        left; apply (Hp [CallInit LIFF_ID; CallIsLoggedIn])
      | exists [CallInit LIFF_ID; CallIsLoggedIn; CallLogin]; split; [reflexivity|];
        left; reflexivity
      | exists [CallInit LIFF_ID; CallIsLoggedIn; CallGetProfile];
        split; [reflexivity|]; right; reflexivity ].
Qed.

(** X6.  Unless [initializeLiff] resolves with a user, the main
    execution publishes nothing: the user fields of [window], the [XR8]
    object, the body of the document and the two variables of the
    enclosing function stay as they were. *)
Theorem failed_login_publishes_nothing (load : ScriptLoad) (p : Page) :
  (forall info, snd (initializeLiff load p) <> Done (Some info)) ->
  let p' := fst (main load p) in
  windowLineUserId p' = windowLineUserId p /\
  windowLineDisplayName p' = windowLineDisplayName p /\
  windowXR8 p' = windowXR8 p /\
  documentBody p' = documentBody p /\
  lineUserId p' = lineUserId p /\
  lineDisplayName p' = lineDisplayName p.
Proof.
  liff_cases; intros H; try (repeat split; reflexivity);
    exfalso; eapply H; reflexivity.
Qed.

Lemma failed_login_publishes_nothing_witness :
  (forall info, snd (initializeLiff LoadFailed samplePageXR8) <> Done (Some info)) /\
  let p' := fst (main LoadFailed samplePageXR8) in
  windowLineUserId p' = None /\
  windowXR8 p' = Some (mkXR8 None None []) /\
  documentBody p' = [].
Proof.
  assert (H : forall info, snd (initializeLiff LoadFailed samplePageXR8)
                           <> Done (Some info)) by (intros info; discriminate).
  destruct (failed_login_publishes_nothing LoadFailed samplePageXR8 H)
    as (Huid & _ & Hxr & Hbody & _).
  split; [exact H|]. intros p'. split; [exact Huid|]. split; [exact Hxr|]. exact Hbody.
Defined.

(** X7.  When [initializeLiff] resolves with a user, the main execution
    completes and publishes that user: [window.lineUserId] and
    [window.lineDisplayName] are set; one [div] reading
    ["User: <display name>"], fixed in place and transparent to
    pointer events, is appended to the body; and when [window.XR8]
    exists its two user fields are set and one camera pipeline module,
    named ["line-auth"], is added after the modules already there.
    Without [window.XR8] no such object is created. *)
Theorem successful_login_publishes_user
    (load : ScriptLoad) (p : Page) (info : UserInfo) :
  snd (initializeLiff load p) = Done (Some info) ->
  let p' := fst (main load p) in
  snd (main load p) = Done tt /\
  windowLineUserId p' = Some (userId info) /\
  windowLineDisplayName p' = Some (displayName info) /\
  (exists display,
     documentBody p' = documentBody p ++ [display] /\
     tagName display = "div" /\
     textContent display = "User: " +:+ displayName info /\
     elementStyle display !! "position" = Some "fixed" /\
     elementStyle display !! "pointerEvents" = Some "none") /\
  windowXR8 p' =
    match windowXR8 p with
    | Some xr8 =>
        Some (mkXR8 (Some (userId info)) (Some (displayName info))
                (cameraPipelineModules xr8
                 ++ [mkPipelineModule "line-auth"
                       [Text "8thWall camera started with LINE user:";
                        Text (displayName info)]]))
    | None => None
    end.
Proof.
  liff_cases; intros H; try discriminate; inversion H; subst;
    unfold setWindowXR8, setWindowLine, setClosureLine in *; simpl in *;
    simplify_eq;
    (split; [reflexivity|]); (split; [reflexivity|]); (split; [reflexivity|]);
    (split; [|reflexivity]);
    eexists; (split; [reflexivity|]); repeat split; reflexivity.
Qed.

Lemma successful_login_publishes_user_witness :
  snd (initializeLiff (Loaded (Some sampleSdk)) samplePageXR8)
    = Done (Some (mkUserInfo "U4af4980629" "Brown")) /\
  let p' := fst (main (Loaded (Some sampleSdk)) samplePageXR8) in
  snd (main (Loaded (Some sampleSdk)) samplePageXR8) = Done tt /\
  windowLineUserId p' = Some "U4af4980629" /\
  windowLineDisplayName p' = Some "Brown" /\
  map textContent (documentBody p') = ["User: Brown"] /\
  (cameraPipelineModules <$> windowXR8 p')
    = Some [mkPipelineModule "line-auth"
              [Text "8thWall camera started with LINE user:"; Text "Brown"]].
Proof.
  assert (H : snd (initializeLiff (Loaded (Some sampleSdk)) samplePageXR8)
              = Done (Some (mkUserInfo "U4af4980629" "Brown"))) by reflexivity.
  destruct (successful_login_publishes_user (Loaded (Some sampleSdk)) samplePageXR8
              (mkUserInfo "U4af4980629" "Brown") H)
    as (Hdone & Huid & Hname & _ & Hxr).
  split; [exact H|]. intros p'.
  split; [exact Hdone|]. split; [exact Huid|]. split; [exact Hname|].
  split; [reflexivity|]. unfold p'. rewrite Hxr. reflexivity.
Defined.

(** X8.  An exception thrown by any step of the [try] block of
    [initializeLiff] (the script fails to load, [window.liff] is still
    undefined, a call on the SDK throws or rejects) is absorbed:
    [initializeLiff] resolves with [null], exactly one [console.error]
    with the fixed text and the error follows what the block had
    logged, and the main execution completes normally. *)
Theorem login_exception_is_logged_and_absorbed
    (load : ScriptLoad) (p : Page) (error : JsError) :
  snd (initializeLiffBody load p) = Throw error ->
  snd (initializeLiff load p) = Done None /\
  snd (main load p) = Done tt /\
  pageConsole (fst (main load p)) =
    pageConsole (fst (initializeLiffBody load p))
    ++ [ErrorEntry [Text "LIFF initialization or authentication failed";
                    Thrown error]].
Proof.
  liff_cases; intros H; try discriminate; inversion H; subst;
    repeat split; reflexivity.
Qed.

Lemma login_exception_is_logged_and_absorbed_witness :
  snd (initializeLiffBody (Loaded (Some sampleSdkInitFails)) samplePage)
    = Throw (SdkFailure "INVALID_ARGUMENT") /\
  snd (initializeLiffBody (Loaded None) samplePage) = Throw (TypeErrorOf "init") /\
  snd (initializeLiffBody LoadFailed samplePage)
    = Throw (ErrorOf "Failed to load LIFF SDK") /\
  snd (main (Loaded (Some sampleSdkInitFails)) samplePage) = Done tt /\
  pageConsole (fst (main (Loaded (Some sampleSdkInitFails)) samplePage))
    = [ErrorEntry [Text "LIFF initialization or authentication failed";
                   Thrown (SdkFailure "INVALID_ARGUMENT")]].
Proof.
  assert (H : snd (initializeLiffBody (Loaded (Some sampleSdkInitFails)) samplePage)
              = Throw (SdkFailure "INVALID_ARGUMENT")) by reflexivity.
  destruct (login_exception_is_logged_and_absorbed
              (Loaded (Some sampleSdkInitFails)) samplePage _ H)
    as (_ & Hdone & Hconsole).
  split; [exact H|]. split; [reflexivity|]. split; [reflexivity|].
  split; [exact Hdone|]. exact Hconsole.
Defined.

(** X9.  The main execution completes normally whenever every awaited
    step settles: the script element fires [onload] or [onerror] (or
    the SDK is already on the page) and no call on the SDK stays
    pending. *)
Theorem main_completes_when_steps_settle (load : ScriptLoad) (p : Page) :
  (windowLiff p = None -> load <> LoadPending) ->
  (forall sdk, sdkAfterLoad load p = Some sdk ->
     init sdk LIFF_ID <> Never /\ isLoggedIn sdk <> Never /\
     login sdk <> Never /\ getProfile sdk <> Never) ->
  snd (main load p) = Done tt.
Proof.
  liff_cases; intros Hload Hsdk; try reflexivity; exfalso;
    first
      [ by apply Hload
      | match goal with
        | H : ?f = Never |- _ =>
            match type of Hsdk with
            | forall sdk, Some ?s = Some sdk -> _ =>
                destruct (Hsdk s eq_refl) as (? & ? & ? & ?); congruence
            end
        end ].
Qed.

Lemma main_completes_when_steps_settle_witness :
  (windowLiff samplePage = None -> LoadFailed <> LoadPending) /\
  snd (main LoadFailed samplePage) = Done tt /\
  snd (main (Loaded (Some sampleSdk)) samplePage) = Done tt.
Proof.
  assert (H1 : windowLiff samplePage = None -> LoadFailed <> LoadPending)
    by (intros _; discriminate).
  assert (H2 : forall sdk, sdkAfterLoad LoadFailed samplePage = Some sdk ->
     init sdk LIFF_ID <> Never /\ isLoggedIn sdk <> Never /\
     login sdk <> Never /\ getProfile sdk <> Never) by (intros sdk; discriminate).
  assert (H3 : windowLiff samplePage = None -> Loaded (Some sampleSdk) <> LoadPending)
    by (intros _; discriminate).
  assert (H4 : forall sdk, sdkAfterLoad (Loaded (Some sampleSdk)) samplePage = Some sdk ->
     init sdk LIFF_ID <> Never /\ isLoggedIn sdk <> Never /\
     login sdk <> Never /\ getProfile sdk <> Never).
  { intros sdk Hs. inversion Hs; subst. repeat split; discriminate. }
  split; [exact H1|]. split.
  - exact (main_completes_when_steps_settle LoadFailed samplePage H1 H2).
  - exact (main_completes_when_steps_settle (Loaded (Some sampleSdk)) samplePage H3 H4).
Defined.

(** * Further properties of the cloner and of the Tap Place component *)

Lemma World_eq (w w' : World) :
  nextEntity w = nextEntity w' -> components w = components w' -> w = w'.
Proof. destruct w, w'; simpl; intros -> ->; reflexivity. Qed.

(** X10.  Cloning an entity onto itself changes nothing. *)
Theorem cloneComponents_onto_itself (e : Eid) (w : World) :
  cloneComponents e e w = w.
Proof.
  apply World_eq; [apply cloneComponents_nextEntity|].
  apply map_eq. intros [k x]. rewrite cloneComponents_lookup.
  case_decide as H; [|reflexivity]. destruct H as (-> & _). reflexivity.
Qed.

(** X11.  Cloning from a source that carries none of the registry
    kinds, such as an id that names no entity, is a no-op: the world is
    returned as it was. *)
Theorem cloneComponents_from_bare_source (sourceEid targetEid : Eid) (w : World) :
  (forall k, k ∈ componentsForClone -> has k w sourceEid = false) ->
  cloneComponents sourceEid targetEid w = w.
Proof.
  intros Hbare. apply World_eq; [apply cloneComponents_nextEntity|].
  apply map_eq. intros [k x]. rewrite cloneComponents_lookup.
  case_decide as H; [|reflexivity]. destruct H as (_ & Hin & Hs).
  apply Hbare, has_false in Hin. rewrite Hin in Hs. by destruct Hs.
Qed.

Lemma cloneComponents_from_bare_source_witness :
  (forall k, k ∈ componentsForClone -> has k sampleWorld 42%N = false) /\
  cloneComponents 42%N sampleBystander sampleWorld = sampleWorld.
Proof.
  assert (H : forall k, k ∈ componentsForClone -> has k sampleWorld 42%N = false).
  { intros k Hin. unfold componentsForClone in Hin.
    repeat (apply elem_of_cons in Hin as [->|Hin]; [vm_compute; reflexivity|]).
    by apply elem_of_nil in Hin. }
  split; [exact H|].
  exact (cloneComponents_from_bare_source 42%N sampleBystander sampleWorld H).
Defined.

(** X12.  Cloning is idempotent: cloning the same source onto the same
    target a second time changes nothing more. *)
Theorem cloneComponents_idempotent (sourceEid targetEid : Eid) (w : World) :
  cloneComponents sourceEid targetEid (cloneComponents sourceEid targetEid w)
  = cloneComponents sourceEid targetEid w.
Proof.
  apply World_eq; [by rewrite !cloneComponents_nextEntity|].
  apply map_eq. intros [k x].
  rewrite (cloneComponents_lookup sourceEid targetEid (cloneComponents _ _ w)).
  assert (Hsrc : components (cloneComponents sourceEid targetEid w) !! (k, sourceEid)
                 = components w !! (k, sourceEid)).
  { rewrite cloneComponents_lookup. case_decide as H; [|reflexivity].
    destruct H as (-> & _). reflexivity. }
  rewrite Hsrc. case_decide as H; [|reflexivity].
  destruct H as (-> & Hin & Hs).
  rewrite cloneComponents_lookup. by rewrite decide_True.
Qed.

(** ** What a tap may touch *)

Lemma spawnOrReport_other cfg random e rt k x :
  x <> nextEntity (world rt) ->
  components (world (spawnOrReport cfg random e rt)) !! (k, x)
  = components (world rt) !! (k, x).
Proof.
  intros Hx.
  destruct (truthy (entityToSpawn cfg)) as [template|] eqn:Ht;
    [|by rewrite spawnOrReport_report].
  rewrite (spawnOrReport_spawn _ _ _ _ template Ht).
  cbv zeta. unfold with_world. cbn [world].
  rewrite components_set, decide_False by congruence.
  rewrite components_set, decide_False by congruence.
  rewrite cloneComponents_lookup, decide_False by (intros (Hq & _); congruence).
  reflexivity.
Qed.

Lemma spawnOrReport_nextEntity cfg random e rt :
  nextEntity (world (spawnOrReport cfg random e rt)) =
    match truthy (entityToSpawn cfg) with
    | Some _ => N.succ (nextEntity (world rt))
    | None => nextEntity (world rt)
    end.
Proof.
  destruct (truthy (entityToSpawn cfg)) as [template|] eqn:Ht;
    [|by rewrite spawnOrReport_report].
  rewrite (spawnOrReport_spawn _ _ _ _ template Ht).
  cbv zeta. unfold with_world. cbn [world].
  rewrite !nextEntity_set. apply cloneComponents_nextEntity.
Qed.

Lemma touchStart_other eid now random e rt k x :
  x <> nextEntity (world rt) ->
  components (world (touchStart eid now random e rt)) !! (k, x)
  = components (world rt) !! (k, x).
Proof.
  intros Hx. unfold touchStart.
  destruct (now - lastInteractionTime (dataAttribute_get rt eid) <=? 500);
    [reflexivity|].
  by rewrite spawnOrReport_other.
Qed.

Lemma touchStart_nextEntity_cases eid now random e rt :
  nextEntity (world (touchStart eid now random e rt)) = nextEntity (world rt) \/
  nextEntity (world (touchStart eid now random e rt)) = N.succ (nextEntity (world rt)).
Proof.
  unfold touchStart.
  destruct (now - lastInteractionTime (dataAttribute_get rt eid) <=? 500);
    [by left|].
  rewrite spawnOrReport_nextEntity.
  destruct (truthy (entityToSpawn (schemaAttribute_get rt eid))); [by right|by left].
Qed.

Lemma worldFresh_lookup (w : World) :
  worldFresh w <->
  forall k x, is_Some (components w !! (k, x)) -> (x < nextEntity w)%N.
Proof.
  unfold worldFresh. rewrite map_Forall_lookup. split.
  - intros H k x [p Hp]. exact (H (k, x) p Hp).
  - intros H [k x] p Hp. apply (H k x). eauto.
Qed.

Lemma touchStart_worldFresh eid now random e rt :
  worldFresh (world rt) -> worldFresh (world (touchStart eid now random e rt)).
Proof.
  rewrite !worldFresh_lookup. intros Hfresh k x Hs.
  destruct (decide (x = nextEntity (world rt))) as [->|Hne].
  - destruct (touchStart_nextEntity_cases eid now random e rt) as [Hn|Hn].
    + rewrite Hn. apply (Hfresh k). 
      destruct (Z.le_gt_cases (now - lastOf eid rt) 500) as [Hle|Hgt].
      * by rewrite touchStart_ignored in Hs.
      * rewrite touchStart_accepted in Hs, Hn by done.
        rewrite spawnOrReport_nextEntity in Hn.
        destruct (truthy (entityToSpawn (schemaAttribute_get rt eid))) eqn:Ht;
          [simpl in Hn; lia|].
        by rewrite spawnOrReport_report in Hs.
    + rewrite Hn. lia.
  - rewrite touchStart_other in Hs by done. apply Hfresh in Hs.
    destruct (touchStart_nextEntity_cases eid now random e rt) as [Hn|Hn];
      rewrite Hn; lia.
Qed.

(** X13.  Taps never disturb what is already in the scene.  From a
    world in which every attribute belongs to an allocated entity, any
    sequence of taps keeps that property, never lowers the allocation
    counter, and leaves every attribute that was there, the template's
    included, exactly as it was. *)
Theorem taps_preserve_existing_attributes
    (eid : Eid) (taps : list Tap) (rt : Runtime) :
  worldFresh (world rt) ->
  worldFresh (world (run eid taps rt)) /\
  (nextEntity (world rt) <= nextEntity (world (run eid taps rt)))%N /\
  components (world rt) ⊆ components (world (run eid taps rt)).
Proof.
  unfold run. revert rt. induction taps as [|t taps IH]; intros rt Hfresh; simpl.
  - split; [exact Hfresh|]. split; [lia|reflexivity].
  - pose proof (touchStart_worldFresh eid (tapTime t) (tapRandom t) (tapEvent t) rt Hfresh)
      as Hfresh'.
    destruct (IH (deliver eid rt t) Hfresh') as (H1 & H2 & H3).
    split; [exact H1|]. split.
    + unfold deliver in *.
      destruct (touchStart_nextEntity_cases eid (tapTime t) (tapRandom t) (tapEvent t) rt)
        as [Hn|Hn]; rewrite Hn in H2; lia.
    + etrans; [|exact H3]. apply map_subseteq_spec. intros [k x] p Hp.
      unfold deliver. rewrite touchStart_other; [exact Hp|].
      assert (Hlt : (x < nextEntity (world rt))%N).
      { apply (proj1 (worldFresh_lookup (world rt)) Hfresh k x). exists p. exact Hp. }
      lia.
Qed.

Lemma taps_preserve_existing_attributes_witness :
  worldFresh (world sampleRuntime) /\
  worldFresh (world (run sampleController sampleTaps sampleRuntime)) /\
  components (world (run sampleController sampleTaps sampleRuntime))
    !! (Position, sampleTemplate) = Some (vec3 1 2 3).
Proof.
  assert (H : worldFresh (world sampleRuntime)).
  { apply (bool_decide_unpack (worldFresh (world sampleRuntime))).
    vm_compute. exact I. }
  destruct (taps_preserve_existing_attributes sampleController sampleTaps
              sampleRuntime H) as (Hfresh & _ & Hsub).
  split; [exact H|]. split; [exact Hfresh|].
  eapply lookup_weaken; [|exact Hsub]. vm_compute. reflexivity.
Defined.

(** X14.  What a spawned entity carries.  In a world where every
    attribute belongs to an allocated entity, the entity created by an
    accepted tap carries, besides its position and its scale animation,
    exactly the registry kinds of the template with the template's
    values, and nothing else; in particular it is not marked disabled,
    although the template is. *)
Theorem spawned_entity_profile
    (eid : Eid) (now : Z) (random : double) (e : TouchEvent) (rt : Runtime)
    (template : Eid) :
  worldFresh (world rt) ->
  500 < now - lastOf eid rt ->
  truthy (entityToSpawn (schemaAttribute_get rt eid)) = Some template ->
  let rt' := touchStart eid now random e rt in
  let newEntity := nextEntity (world rt) in
  (forall k, k <> Position -> k <> ScaleAnimation ->
     components (world rt') !! (k, newEntity) =
       if decide (k ∈ componentsForClone)
       then components (world rt) !! (k, template)
       else None) /\
  has Disabled (world rt') newEntity = false.
Proof.
  intros Hfresh Hgt Ht rt' newEntity.
  assert (Hnone : forall k, components (world rt) !! (k, newEntity) = None).
  { intros k. destruct (components (world rt) !! (k, newEntity)) as [p|] eqn:Hp;
      [|reflexivity].
    assert (Hlt : (newEntity < nextEntity (world rt))%N).
    { apply (proj1 (worldFresh_lookup (world rt)) Hfresh k). exists p. exact Hp. }
    unfold newEntity in Hlt. lia. }
  assert (Hk : forall k, k <> Position -> k <> ScaleAnimation ->
     components (world rt') !! (k, newEntity) =
       if decide (k ∈ componentsForClone)
       then components (world rt) !! (k, template)
       else None).
  { intros k HkP HkS. unfold rt'.
    rewrite (touchStart_spawn_world eid now random e rt template Hgt Ht). cbv zeta.
    rewrite components_set, decide_False by congruence.
    rewrite components_set, decide_False by congruence.
    rewrite cloneComponents_lookup. cbn [components].
    fold newEntity. rewrite Hnone.
    destruct (decide (k ∈ componentsForClone)) as [Hin|Hout].
    - case_decide as H; [reflexivity|].
      destruct (components (world rt) !! (k, template)) as [p|] eqn:Hp; [|reflexivity].
      exfalso. apply H. split; [reflexivity|]. split; [exact Hin|]. eauto.
    - rewrite decide_False; [reflexivity|]. intros (_ & Hin & _). by apply Hout. }
  split; [exact Hk|].
  apply has_false. rewrite Hk by discriminate.
  rewrite decide_False; [reflexivity|]. exact Disabled_not_cloned.
Qed.

Lemma spawned_entity_profile_witness :
  let rt := onEnter sampleController sampleRuntime in
  worldFresh (world rt) /\
  500 < 1000 - lastOf sampleController rt /\
  truthy (entityToSpawn (schemaAttribute_get rt sampleController))
    = Some sampleTemplate /\
  has Disabled (world rt) sampleTemplate = true /\
  let rt' := touchStart sampleController 1000 (draw 1 1) sampleTouch rt in
  components (world rt') !! (Material, 10%N)
    = Some {[ "color" := VStr "#ff0000" ]} /\
  components (world rt') !! (Audio, 10%N) = None /\
  has Disabled (world rt') 10%N = false.
Proof.
  intros rt.
  assert (Hfresh : worldFresh (world rt)).
  { apply (bool_decide_unpack (worldFresh (world rt))). vm_compute. exact I. }
  assert (Hgt : 500 < 1000 - lastOf sampleController rt) by (vm_compute; reflexivity).
  assert (Ht : truthy (entityToSpawn (schemaAttribute_get rt sampleController))
               = Some sampleTemplate) by (vm_compute; reflexivity).
  destruct (spawned_entity_profile sampleController 1000 (draw 1 1) sampleTouch rt
              sampleTemplate Hfresh Hgt Ht) as (Hk & Hd).
  split; [exact Hfresh|]. split; [exact Hgt|]. split; [exact Ht|].
  split; [vm_compute; reflexivity|]. intros rt'.
  split; [|split].
  - etrans; [exact (Hk Material ltac:(discriminate) ltac:(discriminate))|].
    vm_compute. reflexivity.
  - etrans; [exact (Hk Audio ltac:(discriminate) ltac:(discriminate))|].
    vm_compute. reflexivity.
  - exact Hd.
Defined.

(** ** Runs of taps *)

Lemma deliver_schemaAttribute_get eid rt t :
  schemaAttribute_get (deliver eid rt t) eid = schemaAttribute_get rt eid.
Proof.
  unfold schemaAttribute_get, deliver. by rewrite touchStart_schemaAttribute.
Qed.

Lemma spawnOrReport_console cfg random e rt :
  console (spawnOrReport cfg random e rt) =
    match truthy (entityToSpawn cfg) with
    | Some _ => console rt
    | None => console rt ++ [missingTemplateMessage]
    end.
Proof.
  destruct (truthy (entityToSpawn cfg)) as [template|] eqn:Ht.
  - by rewrite (spawnOrReport_spawn _ _ _ _ template Ht).
  - by rewrite spawnOrReport_report.
Qed.

(** X15.  With a template configured, every tap that passes the
    cooldown test creates exactly one entity and nothing is reported:
    after any sequence of taps the allocation counter has advanced by
    the number of accepted taps and the console is unchanged. *)
Theorem configured_run_spawns_once_per_accepted_tap
    (eid : Eid) (taps : list Tap) (rt : Runtime) (template : Eid) :
  truthy (entityToSpawn (schemaAttribute_get rt eid)) = Some template ->
  nextEntity (world (run eid taps rt))
    = (nextEntity (world rt) + N.of_nat (length (acceptedTimes eid taps rt)))%N /\
  spawnTimes eid taps rt = acceptedTimes eid taps rt /\
  console (run eid taps rt) = console rt.
Proof.
  unfold run. revert rt. induction taps as [|t taps IH]; intros rt Ht; simpl.
  - split; [lia|]. split; reflexivity.
  - assert (Ht' : truthy (entityToSpawn (schemaAttribute_get (deliver eid rt t) eid))
                  = Some template) by (by rewrite deliver_schemaAttribute_get).
    destruct (IH _ Ht') as (Hn & Hs & Hc). fold (lastOf eid rt).
    destruct (Z.leb_spec (tapTime t - lastOf eid rt) 500) as [Hle|Hgt].
    + unfold deliver in *. rewrite touchStart_ignored in * by done.
      rewrite N.eqb_refl. split; [exact Hn|]. split; [exact Hs|exact Hc].
    + assert (Hsucc : nextEntity (world (deliver eid rt t))
                      = N.succ (nextEntity (world rt))).
      { unfold deliver.
        by apply (touchStart_spawn_nextEntity eid _ _ _ rt template). }
      assert (Hcons : console (deliver eid rt t) = console rt).
      { unfold deliver. rewrite touchStart_accepted by done.
        rewrite spawnOrReport_console, Ht. reflexivity. }
      rewrite Hn, Hs, Hc, Hsucc, Hcons.
      destruct (N.eqb_spec (N.succ (nextEntity (world rt))) (nextEntity (world rt)))
        as [Heq|_]; [lia|].
      split; [simpl length; lia|]. split; reflexivity.
Qed.

Lemma configured_run_spawns_once_per_accepted_tap_witness :
  truthy (entityToSpawn (schemaAttribute_get sampleRuntime sampleController))
    = Some sampleTemplate /\
  acceptedTimes sampleController sampleTaps sampleRuntime = [1000; 1600] /\
  nextEntity (world (run sampleController sampleTaps sampleRuntime)) = 12%N /\
  console (run sampleController sampleTaps sampleRuntime) = [].
Proof.
  assert (Ht : truthy (entityToSpawn (schemaAttribute_get sampleRuntime sampleController))
               = Some sampleTemplate) by (vm_compute; reflexivity).
  destruct (configured_run_spawns_once_per_accepted_tap sampleController sampleTaps
              sampleRuntime sampleTemplate Ht) as (Hn & _ & Hc).
  split; [exact Ht|]. split; [vm_compute; reflexivity|].
  split; [rewrite Hn; vm_compute; reflexivity|exact Hc].
Defined.

(** X16.  Without a usable template, taps never change the world: after
    any sequence of taps the world is the one before, no tap is a
    spawn, and the console has gained the configuration error once per
    tap that passed the cooldown test, so at most once per 500 ms. *)
Theorem misconfigured_run_only_reports
    (eid : Eid) (taps : list Tap) (rt : Runtime) :
  truthy (entityToSpawn (schemaAttribute_get rt eid)) = None ->
  world (run eid taps rt) = world rt /\
  spawnTimes eid taps rt = [] /\
  console (run eid taps rt)
    = console rt
      ++ replicate (length (acceptedTimes eid taps rt)) missingTemplateMessage.
Proof.
  unfold run. revert rt. induction taps as [|t taps IH]; intros rt Ht; simpl.
  - split; [reflexivity|]. split; [reflexivity|]. by rewrite app_nil_r.
  - assert (Ht' : truthy (entityToSpawn (schemaAttribute_get (deliver eid rt t) eid))
                  = None) by (by rewrite deliver_schemaAttribute_get).
    destruct (IH _ Ht') as (Hw & Hs & Hc). fold (lastOf eid rt).
    destruct (Z.leb_spec (tapTime t - lastOf eid rt) 500) as [Hle|Hgt].
    + unfold deliver in *. rewrite touchStart_ignored in * by done.
      rewrite N.eqb_refl. split; [exact Hw|]. split; [exact Hs|exact Hc].
    + assert (Hd : deliver eid rt t
                   = console_error (dataAttribute_set rt eid (mkData (tapTime t)))
                       missingTemplateMessage).
      { unfold deliver. rewrite touchStart_accepted by done.
        by rewrite spawnOrReport_report. }
      rewrite Hw, Hs, Hc, Hd. cbn [world console console_error dataAttribute_set].
      rewrite N.eqb_refl. split; [reflexivity|]. split; [reflexivity|].
      cbn [length replicate]. by rewrite <- app_assoc.
Qed.

Lemma misconfigured_run_only_reports_witness :
  truthy (entityToSpawn (schemaAttribute_get sampleUnconfigured sampleController))
    = None /\
  world (run sampleController sampleTaps sampleUnconfigured) = sampleWorld /\
  console (run sampleController sampleTaps sampleUnconfigured)
    = [missingTemplateMessage; missingTemplateMessage].
Proof.
  assert (Ht : truthy (entityToSpawn
                 (schemaAttribute_get sampleUnconfigured sampleController)) = None)
    by (vm_compute; reflexivity).
  destruct (misconfigured_run_only_reports sampleController sampleTaps
              sampleUnconfigured Ht) as (Hw & _ & Hc).
  split; [exact Ht|]. split; [exact Hw|]. rewrite Hc. vm_compute. reflexivity.
Defined.

Lemma acceptedTimes_Forall (P : Z -> Prop) eid taps rt :
  Forall (fun t => P (tapTime t)) taps -> Forall P (acceptedTimes eid taps rt).
Proof.
  intros H. revert rt. induction H as [|t taps Ht Htaps IH]; intros rt; simpl.
  - constructor.
  - destruct (tapTime t - lastInteractionTime (dataAttribute_get rt eid) <=? 500).
    + apply IH.
    + constructor; [exact Ht|apply IH].
Qed.

Lemma gap_sorted_length (l : list Z) :
  StronglySorted gap l ->
  forall lo hi, lo <= hi -> Forall (fun t => lo <= t <= hi) l ->
  501 * (Z.of_nat (length l) - 1) <= hi - lo.
Proof.
  induction 1 as [|a l Hsorted IH Hall]; intros lo hi Hlohi Hrange.
  - simpl. lia.
  - inversion Hrange as [|? ? Ha Hl]; subst.
    destruct l as [|b l].
    + simpl. lia.
    + assert (Hb : a + 501 <= hi).
      { inversion Hall as [|? ? Hab _]; subst. inversion Hl as [|? ? Hb _]; subst.
        unfold gap in Hab. lia. }
      assert (Hrange' : Forall (fun t => a + 501 <= t <= hi) (b :: l)).
      { apply Forall_forall. intros t Hin.
        rewrite Forall_forall in Hall, Hl.
        specialize (Hall t Hin). specialize (Hl t Hin). unfold gap in Hall. lia. }
      specialize (IH (a + 501) hi Hb Hrange').
      change (length (a :: b :: l)) with (S (length (b :: l))).
      lia.
Qed.

(** X17.  The cooldown is a rate limit.  If all taps of a sequence
    carry clock readings between [lo] and [hi], the number [n] of taps
    that pass the cooldown test satisfies [501 * (n - 1) <= hi - lo]:
    at most one per half second and a millisecond, whatever the stored
    timestamp and however many taps arrive. *)
Theorem accepted_taps_are_rate_limited
    (eid : Eid) (taps : list Tap) (rt : Runtime) (lo hi : Z) :
  lo <= hi ->
  Forall (fun t => lo <= tapTime t <= hi) taps ->
  501 * (Z.of_nat (length (acceptedTimes eid taps rt)) - 1) <= hi - lo.
Proof.
  intros Hlohi Hrange. apply gap_sorted_length.
  - apply acceptedTimes_gap.
  - exact Hlohi.
  - by apply (acceptedTimes_Forall (fun t => lo <= t <= hi)).
Qed.

Lemma accepted_taps_are_rate_limited_witness :
  1000 <= 2000 /\
  Forall (fun t => 1000 <= tapTime t <= 2000) sampleTaps /\
  501 * (Z.of_nat (length (acceptedTimes sampleController sampleTaps sampleRuntime)) - 1)
    <= 2000 - 1000.
Proof.
  assert (H1 : 1000 <= 2000) by lia.
  assert (H2 : Forall (fun t => 1000 <= tapTime t <= 2000) sampleTaps).
  { unfold sampleTaps. repeat constructor; simpl; lia. }
  split; [exact H1|]. split; [exact H2|].
  exact (accepted_taps_are_rate_limited sampleController sampleTaps sampleRuntime
           1000 2000 H1 H2).
Defined.

Lemma touchStart_dataAttribute_other eid eid' now random e rt :
  eid' <> eid ->
  dataAttribute (touchStart eid now random e rt) !! eid' = dataAttribute rt !! eid'.
Proof.
  intros Hne. unfold touchStart.
  destruct (now - lastInteractionTime (dataAttribute_get rt eid) <=? 500);
    [reflexivity|].
  rewrite spawnOrReport_dataAttribute. simpl. by rewrite lookup_insert_ne.
Qed.

(** X18.  Controllers do not interfere through their state: taps on one
    controlled entity never change the stored timestamp of another
    controlled entity, and never change any schema value. *)
Theorem taps_leave_other_controllers_alone
    (eid eid' : Eid) (taps : list Tap) (rt : Runtime) :
  eid' <> eid ->
  lastOf eid' (run eid taps rt) = lastOf eid' rt /\
  schemaAttribute (run eid taps rt) = schemaAttribute rt.
Proof.
  intros Hne. unfold run. revert rt.
  induction taps as [|t taps IH]; intros rt; simpl; [by split|].
  destruct (IH (deliver eid rt t)) as (Hl & Hs). rewrite Hl, Hs.
  unfold deliver. split; [|apply touchStart_schemaAttribute].
  unfold lastOf, dataAttribute_get.
  by rewrite touchStart_dataAttribute_other.
Qed.

Lemma taps_leave_other_controllers_alone_witness :
  sampleBystander <> sampleController /\
  lastOf sampleBystander (run sampleController sampleTaps sampleRuntime) = 0 /\
  lastOf sampleController (run sampleController sampleTaps sampleRuntime) = 1600.
Proof.
  assert (H : sampleBystander <> sampleController) by discriminate.
  destruct (taps_leave_other_controllers_alone sampleController sampleBystander
              sampleTaps sampleRuntime H) as (Hl & _).
  split; [exact H|]. split; [rewrite Hl; reflexivity|vm_compute; reflexivity].
Defined.

Lemma last_nonempty_default (l : list Z) (a d d' : Z) :
  List.last (a :: l) d = List.last (a :: l) d'.
Proof.
  revert a. induction l as [|b l IH]; intros a; [reflexivity|].
  change (List.last (b :: l) d = List.last (b :: l) d'). apply IH.
Qed.

(** X19.  The stored timestamp after a sequence of taps is the clock
    reading of the last tap that passed the cooldown test, or the
    timestamp from before when none did. *)
Theorem timestamp_is_last_accepted_tap (eid : Eid) (taps : list Tap) (rt : Runtime) :
  lastOf eid (run eid taps rt)
  = List.last (acceptedTimes eid taps rt) (lastOf eid rt).
Proof.
  unfold run. revert rt. induction taps as [|t taps IH]; intros rt; simpl;
    [reflexivity|].
  rewrite IH. fold (lastOf eid rt).
  destruct (Z.leb_spec (tapTime t - lastOf eid rt) 500) as [Hle|Hgt].
  - unfold deliver. by rewrite touchStart_ignored.
  - assert (Hl : lastOf eid (deliver eid rt t) = tapTime t)
      by (unfold deliver; by apply lastOf_accepted).
    rewrite Hl.
    destruct (acceptedTimes eid taps (deliver eid rt t)) as [|z l]; [reflexivity|].
    change (List.last (z :: l) (tapTime t) = List.last (z :: l) (lastOf eid rt)).
    apply last_nonempty_default.
Qed.

(** X20.  With the bounds the wrong way round the scale is still
    between them: for finite bounds with [maxScale <= minScale] whose
    difference does not overflow and a draw in [0, 1), an accepted
    spawn animates to a scale in the closed interval
    [maxScale, minScale]. *)
Theorem spawn_scale_with_reversed_bounds
    (eid : Eid) (now : Z) (random : double) (e : TouchEvent) (rt : Runtime)
    (template : Eid) :
  500 < now - lastOf eid rt ->
  truthy (entityToSpawn (schemaAttribute_get rt eid)) = Some template ->
  valid random -> fle 0 random -> flt random 1 ->
  let cfg := schemaAttribute_get rt eid in
  valid (minScale cfg) -> valid (maxScale cfg) ->
  fle (maxScale cfg) (minScale cfg) ->
  finite (fsub (maxScale cfg) (minScale cfg)) = true ->
  exists scale : double,
    get ScaleAnimation (world (touchStart eid now random e rt))
        (nextEntity (world rt)) !! "toX" = Some (VNum scale) /\
    fle (maxScale cfg) scale /\ fle scale (minScale cfg).
Proof.
  intros Hgt Ht Vr H0 H1 cfg Vmn Vmx Hrev Hfin.
  exists (randomScaleOf random (minScale cfg) (maxScale cfg)).
  rewrite (touchStart_spawn_get_ScaleAnimation eid now random e rt template Hgt Ht).
  destruct (scaleAnimationProps_fields
              (randomScaleOf random (minScale cfg) (maxScale cfg)))
    as (_ & _ & _ & HtX & _).
  split; [exact HtX|]. by apply randomScaleOf_within_reversed_bounds.
Qed.

Lemma spawn_scale_with_reversed_bounds_witness :
  let rt := configure sampleController (mkSchema (Some sampleTemplate) 3 2)
              sampleRuntime in
  let random := draw (2 ^ 53 - 1) 53 in
  500 < 1000 - lastOf sampleController rt /\
  valid random /\ fle 0 random /\ flt random 1 /\
  valid (double_of_Z 3) /\ valid (double_of_Z 2) /\ fle 2 3 /\
  finite (fsub 2 3) = true /\
  exists scale : double,
    get ScaleAnimation (world (touchStart sampleController 1000 random sampleTouch rt))
        10%N !! "toX" = Some (VNum scale) /\
    fle 2 scale /\ fle scale 3.
Proof.
  intros rt random.
  assert (Hgt : 500 < 1000 - lastOf sampleController rt) by (vm_compute; reflexivity).
  assert (Ht : truthy (entityToSpawn (schemaAttribute_get rt sampleController))
               = Some sampleTemplate) by (vm_compute; reflexivity).
  assert (Vr : valid random) by (split; vm_compute; reflexivity).
  assert (H0 : fle 0 random) by (vm_compute; reflexivity).
  assert (H1 : flt random 1) by (vm_compute; reflexivity).
  assert (Vmn : valid (double_of_Z 3)) by (split; vm_compute; reflexivity).
  assert (Vmx : valid (double_of_Z 2)) by (split; vm_compute; reflexivity).
  assert (Hrev : fle 2 3) by (vm_compute; reflexivity).
  assert (Hfin : finite (fsub 2 3) = true) by (vm_compute; reflexivity).
  split; [exact Hgt|]. split; [exact Vr|]. split; [exact H0|]. split; [exact H1|].
  split; [exact Vmn|]. split; [exact Vmx|]. split; [exact Hrev|]. split; [exact Hfin|].
  exact (spawn_scale_with_reversed_bounds sampleController 1000 random sampleTouch
           rt sampleTemplate Hgt Ht Vr H0 H1 Vmn Vmx Hrev Hfin).
Defined.

(** X21.  Activation is idempotent and has a small footprint: running
    [onEnter] again changes nothing more, and [onEnter] writes no
    attribute other than a [Disabled] marker, creates no entity and
    leaves the schema, the data and the console alone. *)
Theorem onEnter_idempotent_small_footprint (eid : Eid) (rt : Runtime) :
  onEnter eid (onEnter eid rt) = onEnter eid rt /\
  (forall k x, k <> Disabled ->
     components (world (onEnter eid rt)) !! (k, x) = components (world rt) !! (k, x)) /\
  nextEntity (world (onEnter eid rt)) = nextEntity (world rt) /\
  schemaAttribute (onEnter eid rt) = schemaAttribute rt /\
  dataAttribute (onEnter eid rt) = dataAttribute rt /\
  console (onEnter eid rt) = console rt.
Proof.
  split.
  - unfold onEnter at 1. unfold schemaAttribute_get. rewrite onEnter_schemaAttribute.
    fold (schemaAttribute_get rt eid). unfold onEnter.
    destruct (truthy (entityToSpawn (schemaAttribute_get rt eid))) as [template|];
      [|reflexivity].
    unfold with_world, set. simpl. by rewrite insert_insert_eq.
  - unfold onEnter.
    destruct (truthy (entityToSpawn (schemaAttribute_get rt eid))) as [template|];
      [|by repeat split].
    split; [|by repeat split].
    intros k x Hk. unfold with_world. cbn [world].
    rewrite components_set, decide_False by congruence. reflexivity.
Qed.
